(** * cloud-gateway: the decision core of [gateway_manager.py]

    A shallow embedding of the classes of [src/gateway_manager.py]
    ([CircuitBreaker], [RateLimiter], [LoadBalancer], [GatewayMetrics],
    [APIGatewayManager]) and the properties the specification states
    about them.

    Conventions of the embedding.
    - A Python [int] is a [Z].
    - A Python [float] (a threshold, a [time.time()] stamp, a latency, a
      random draw) is the exact rational [Q] it stands for.  The two places
      where the code computes a double and then branches on it are computed
      on the double: the failure ratio [failure_count / total] of the
      breaker (module [Double]) and the percentile index [int(n * 0.95)]
      (module [Float]).  The rounding of sums and differences of floats is
      not modelled.
    - A [dict] with string keys is a [gmap string _].
    - Every method runs under its object lock and is one atomic step here:
      a function from the state before (and the clock reading or the random
      draw the call obtains) to the state after and the returned value. *)

From Stdlib Require Import ZArith QArith Lqa List Sorting.Permutation Sorting.Sorted.
From stdpp Require Import gmap strings list fin_maps.

Local Open Scope Z_scope.

(** Boolean comparisons on [Q], so that the embedding stays executable. *)
Definition Qltb (a b : Q) : bool := negb (Qle_bool b a).

(** ** The double-precision quotient behind [failure_count / total] *)

Module Double.

(** The rational [m * 2^e]. *)
Definition value (m e : Z) : Q :=
  if 0 <=? e then inject_Z (m * 2 ^ e) else m # Z.to_pos (2 ^ (- e)).

(** The rationals that are IEEE doubles: a significand below [2^53] in
    absolute value and an exponent from [-1074] to [971]. *)
Definition is_double (x : Q) : Prop :=
  exists m e, Z.abs m < 2 ^ 53 /\ -1074 <= e <= 971 /\ (x == value m e)%Q.

(** [floor(log2(a / b))] for positive [a] and [b]. *)
Definition floor_log2 (a b : Z) : Z :=
  let k := Z.log2 a - Z.log2 b in
  if b * 2 ^ Z.max 0 k <=? a * 2 ^ Z.max 0 (- k) then k else k - 1.

(** [n / d] rounded to the nearest integer, ties to the even one, for
    [0 <= n] and [0 < d]. *)
Definition round_div (n d : Z) : Z :=
  let q := n / d in
  let r := n mod d in
  if (d <? 2 * r) || ((2 * r =? d) && Z.odd q) then q + 1 else q.

(** The true division of two positive Python integers: the exact quotient
    rounded to the nearest double (53 significant bits, ties to even,
    subnormal below [2^-1022]).  A quotient of [2^1024] or more raises
    [OverflowError] in Python and is not covered; the breaker divides a
    count by a total that is at least as large. *)
Definition div_pos (a b : Z) : Q :=
  let e := Z.max (floor_log2 a b - 52) (-1074) in
  value (round_div (a * 2 ^ Z.max 0 (- e)) (b * 2 ^ Z.max 0 e)) e.

(** [a / b] for an integer [a] and a positive integer [b]. *)
Definition div (a b : Z) : Q :=
  match a with
  | Z0 => 0
  | Zpos _ => div_pos a b
  | Zneg _ => - div_pos (- a) b
  end.

(** For [0 < a <= b] the double [a / b] is [significand / 2^scale]. *)
Definition scale (a b : Z) : Z := - Z.max (floor_log2 a b - 52) (-1074).
Definition significand (a b : Z) : Z := round_div (a * 2 ^ scale a b) b.

(** The double nearest to 0.3, the literal [0.3] of Python. *)
Definition three_tenths : Q := value 5404319552844595 (-54).

End Double.

(** ** CircuitBreaker *)

Module CircuitBreaker.

Inductive breaker_state := closed | open | half_open.

#[export] Instance breaker_state_eq_dec : EqDecision breaker_state.
Proof. solve_decision. Defined.

Record t := mk {
  threshold : Q;
  timeout_seconds : Z;
  failure_count : Z;
  success_count : Z;
  last_failure_time : option Q;
  state : breaker_state
}.

(** [__init__(threshold, timeout_seconds)] *)
Definition init (th : Q) (timeout : Z) : t :=
  mk th timeout 0 0 None closed.

(** [CircuitBreaker()] with the default arguments. *)
Definition fresh : t := init (1 # 2) 60.

(** [record_success] *)
Definition record_success (b : t) : t :=
  let sc := success_count b + 1 in
  match state b with
  | half_open =>
      mk (threshold b) (timeout_seconds b) 0 0 (last_failure_time b) closed
  | _ =>
      mk (threshold b) (timeout_seconds b) (failure_count b) sc
         (last_failure_time b) (state b)
  end.

(** The test [total > 0 and failure_count / total > threshold]: the
    quotient of the two integers is a double, compared with the threshold. *)
Definition trips (th : Q) (fc sc : Z) : bool :=
  let total := fc + sc in
  (0 <? total) && Qltb th (Double.div fc total).

(** [record_failure], where [now] is the value of [time.time()]. *)
Definition record_failure (now : Q) (b : t) : t :=
  let fc := failure_count b + 1 in
  mk (threshold b) (timeout_seconds b) fc (success_count b) (Some now)
     (if trips (threshold b) fc (success_count b) then open else state b).

(** Truth value of [self.last_failure_time]: [None] and [0.0] are false. *)
Definition truthy (o : option Q) : bool :=
  match o with
  | None => false
  | Some x => negb (Qeq_bool x 0)
  end.

(** The test of the [open] branch of [can_execute]. *)
Definition timed_out (now : Q) (b : t) : bool :=
  match last_failure_time b with
  | Some lf =>
      truthy (Some lf) && Qltb (inject_Z (timeout_seconds b)) (now - lf)
  | None => false
  end.

(** [can_execute], where [now] is the value of [time.time()]. *)
Definition can_execute (now : Q) (b : t) : t * bool :=
  match state b with
  | closed => (b, true)
  | open =>
      if timed_out now b
      then (mk (threshold b) (timeout_seconds b) 0 0 (last_failure_time b)
               half_open, true)
      else (b, false)
  | half_open => (b, true)
  end.

(** A call on the breaker, with the clock reading it obtains. *)
Inductive call :=
| RecordFailure (now : Q)
| RecordSuccess
| CanExecute (now : Q).

Definition step (b : t) (c : call) : t :=
  match c with
  | RecordFailure now => record_failure now b
  | RecordSuccess => record_success b
  | CanExecute now => fst (can_execute now b)
  end.

Definition run (b : t) (cs : list call) : t := fold_left step cs b.

(** The clock reading of the last [record_failure] of a call sequence
    ([acc] when there is none). *)
Fixpoint last_failure (acc : option Q) (cs : list call) : option Q :=
  match cs with
  | [] => acc
  | RecordFailure now :: cs' => last_failure (Some now) cs'
  | _ :: cs' => last_failure acc cs'
  end.

(** What every breaker reached from [__init__] satisfies: the counters are
    not negative, a breaker that is not closed carries the stamp of a failure,
    and an open breaker has counted at least one failure. *)
Definition well_formed (b : t) : Prop :=
  0 <= failure_count b /\ 0 <= success_count b /\
  (state b <> closed -> is_Some (last_failure_time b)) /\
  (state b = open -> 1 <= failure_count b).

End CircuitBreaker.

(** ** RateLimiter *)

Inductive RateLimitStrategy := TOKEN_BUCKET | SLIDING_WINDOW | FIXED_WINDOW.

Record RateLimitConfig := mkRateLimitConfig {
  strategy : RateLimitStrategy;
  requests_per_window : Z;
  window_size_seconds : Z;
  cleanup_interval_seconds : Z
}.

Module RateLimiter.

Record t := mk {
  config : RateLimitConfig;
  buckets : gmap string (list Q)
}.

(** [__init__(config)] *)
Definition init (c : RateLimitConfig) : t := mk c ∅.

(** The timestamps kept by the comprehension
    [[ts for ts in bucket if now - ts < window_size_seconds]]. *)
Definition prune (now : Q) (window : Z) (bucket : list Q) : list Q :=
  List.filter (fun ts => Qltb (now - ts) (inject_Z window)) bucket.

(** [is_allowed(client_id)], where [now] is the value of [time.time()].
    A client that is not yet a key gets the empty list first. *)
Definition is_allowed (now : Q) (client_id : string) (rl : t) : t * bool :=
  let bucket := default [] (buckets rl !! client_id) in
  let pruned := prune now (window_size_seconds (config rl)) bucket in
  if Z.of_nat (length pruned) <? requests_per_window (config rl)
  then (mk (config rl) (<[client_id := pruned ++ [now]]> (buckets rl)), true)
  else (mk (config rl) (<[client_id := pruned]> (buckets rl)), false).

(** The timestamp sequence stored for a client ([[]] when it is no key). *)
Definition bucket_of (client_id : string) (rl : t) : list Q :=
  default [] (buckets rl !! client_id).

(** A sequence of [is_allowed] calls, each with its clock reading and its
    client; the limiter has no other method. *)
Definition run (rl : t) (calls : list (Q * string)) : t :=
  fold_left (fun s c => fst (is_allowed (fst c) (snd c) s)) calls rl.

(** The limiter after consecutive calls of one client at the given times. *)
Definition after (client_id : string) (rl : t) (times : list Q) : t :=
  fold_left (fun s now => fst (is_allowed now client_id s)) times rl.

(** The answers of consecutive calls of one client at the given times. *)
Fixpoint answers (client_id : string) (rl : t) (times : list Q) : list bool :=
  match times with
  | [] => []
  | now :: rest =>
      let '(rl', a) := is_allowed now client_id rl in
      a :: answers client_id rl' rest
  end.

(** The clock readings of the allowed calls among consecutive calls of one
    client at the given times. *)
Fixpoint admitted (client_id : string) (rl : t) (times : list Q) : list Q :=
  match times with
  | [] => []
  | now :: rest =>
      let '(rl', a) := is_allowed now client_id rl in
      if a then now :: admitted client_id rl' rest
      else admitted client_id rl' rest
  end.

(** The clock readings of the calls one client makes in a sequence of calls
    of several clients. *)
Definition own_times (client_id : string) (calls : list (Q * string)) : list Q :=
  map fst (List.filter (fun call => String.eqb (snd call) client_id) calls).

End RateLimiter.

(** ** ServiceInstance and LoadBalancer *)

Record ServiceInstance := mkServiceInstance {
  host : string;
  port : Z;
  weight : Z;
  health_check_interval_seconds : Z;
  max_connections : Z;
  last_health_check : option string;
  is_healthy : bool;
  consecutive_failures : Z
}.

(** [ServiceInstance(host, port)] with the default field values. *)
Definition new_instance (h : string) (p : Z) : ServiceInstance :=
  mkServiceInstance h p 1 30 1000 None true 0.

Module LoadBalancer.

Record t := mk {
  strategy : string;
  current_index : Z
}.

(** [__init__(strategy)], and [LoadBalancer()] with the default strategy. *)
Definition init (s : string) : t := mk s 0.
Definition fresh : t := init "round_robin".

(** [[i for i in instances if i.is_healthy]] *)
Definition healthy_of (instances : list ServiceInstance) : list ServiceInstance :=
  List.filter is_healthy instances.

(** [min(healthy, key=lambda x: x.max_connections)] on a non-empty list
    [h0 :: rest]: the first element with the least key. *)
Definition min_by_connections (h0 : ServiceInstance) (rest : list ServiceInstance)
  : ServiceInstance :=
  fold_left
    (fun best x => if max_connections x <? max_connections best then x else best)
    rest h0.

(** [sum(i.weight for i in healthy)] *)
Definition total_weight (healthy : list ServiceInstance) : Z :=
  fold_left (fun acc i => acc + weight i) healthy 0.

(** The value of [accumulated] once the loop has added the weight of the
    instance at index [k]. *)
Definition cumulative (healthy : list ServiceInstance) (k : nat) : Z :=
  total_weight (take (S k) healthy).

(** The loop of the weighted branch, from the running sum [accumulated]:
    the first instance at which [r <= accumulated] holds after its weight
    was added, or [None] when the loop falls through. *)
Fixpoint walk (r : Q) (accumulated : Z) (healthy : list ServiceInstance)
  : option ServiceInstance :=
  match healthy with
  | [] => None
  | instance :: rest =>
      let accumulated := accumulated + weight instance in
      if Qle_bool r (inject_Z accumulated) then Some instance
      else walk r accumulated rest
  end.

(** The weighted branch for the draw [r = random.uniform(0, total_weight)]. *)
Definition select_weighted (r : Q) (h0 : ServiceInstance)
    (rest : list ServiceInstance) : ServiceInstance :=
  let healthy := h0 :: rest in
  if total_weight healthy =? 0 then h0
  else match walk r 0 healthy with
       | Some i => i
       | None => List.last healthy h0
       end.

(** [select_instance(instances)]; [r] is the value [random.uniform] returns
    when the weighted branch draws it.  The result is the balancer after
    the call and the returned instance ([None] is Python's [None]). *)
Definition select_instance (r : Q) (instances : list ServiceInstance) (lb : t)
  : t * option ServiceInstance :=
  match healthy_of instances with
  | [] => (lb, None)
  | h0 :: rest =>
      let healthy := h0 :: rest in
      if String.eqb (strategy lb) "round_robin" then
        let idx := current_index lb mod Z.of_nat (length healthy) in
        (mk (strategy lb) (current_index lb + 1), healthy !! Z.to_nat idx)
      else if String.eqb (strategy lb) "least_connections" then
        (lb, Some (min_by_connections h0 rest))
      else if String.eqb (strategy lb) "weighted" then
        (lb, Some (select_weighted r h0 rest))
      else (lb, Some h0)
  end.

(** [n] consecutive calls on the same instance list; the draws are taken
    from [rs] (a missing draw is read as 0). *)
Fixpoint select_many (rs : list Q) (n : nat) (instances : list ServiceInstance)
    (lb : t) : t * list (option ServiceInstance) :=
  match n with
  | O => (lb, [])
  | S n' =>
      let '(lb1, x) := select_instance (hd 0%Q rs) instances lb in
      let '(lb2, xs) := select_many (tl rs) n' instances lb1 in
      (lb2, x :: xs)
  end.

End LoadBalancer.

(** ** The double-precision product behind [int(len(latencies) * 0.95)] *)

Module Float.

(** A positive double is [m * 2^e] with a 53-bit significand [m].  The
    literals [0.95] and [0.99] are the doubles [0x3FEE666666666666] and
    [0x3FEFAE147AE147AE]: significands [m95] and [m99], exponent [-53]. *)
Definition m95 : Z := 8556839292003942.
Definition m99 : Z := 8917127262193582.

(** [p / 2^k] rounded to the nearest integer, ties to the even one. *)
Definition round_shift (p k : Z) : Z :=
  if k <=? 0 then p * 2 ^ (- k)
  else
    let q := p / 2 ^ k in
    let rem := p mod 2 ^ k in
    let half := 2 ^ (k - 1) in
    if (half <? rem) || ((rem =? half) && Z.odd q) then q + 1 else q.

(** [int(n * c)] for an integer [0 <= n < 2^53] and the double
    [c = m * 2^-53]: [n] converts exactly, the exact product [n * m * 2^-53]
    is rounded to 53 significant bits (to nearest, ties to even), and
    [int] drops the fraction. *)
Definition int_mul (n m : Z) : Z :=
  let p := n * m in
  if p <=? 0 then 0
  else
    let k := Z.max 0 (Z.log2 p + 1 - 53) in
    (round_shift p k * 2 ^ k) / 2 ^ 53.

End Float.

(** ** GatewayMetrics *)

Module GatewayMetrics.

Record t := mk {
  requests_total : Z;
  requests_success : Z;
  requests_failed : Z;
  requests_latency_ms : list Q;
  bytes_in : Z;
  bytes_out : Z
}.

(** [__init__] *)
Definition init : t := mk 0 0 0 [] 0 0.

(** [l[-10000:]] *)
Definition last_10000 (l : list Q) : list Q :=
  skipn (Z.to_nat (Z.of_nat (length l) - 10000)) l.

(** [record_request(success, latency_ms, bytes_in, bytes_out)] *)
Definition record_request (success : bool) (latency_ms : Q) (b_in b_out : Z)
    (m : t) : t :=
  let lat := requests_latency_ms m ++ [latency_ms] in
  mk (requests_total m + 1)
     (if success then requests_success m + 1 else requests_success m)
     (if success then requests_failed m else requests_failed m + 1)
     (if 10000 <? Z.of_nat (length lat) then last_10000 lat else lat)
     (bytes_in m + b_in)
     (bytes_out m + b_out).

(** [sorted(latencies)]: a stable sort into ascending order. *)
Fixpoint insert_sorted (x : Q) (l : list Q) : list Q :=
  match l with
  | [] => [x]
  | y :: l' => if Qle_bool x y then x :: l else y :: insert_sorted x l'
  end.

Definition sorted (l : list Q) : list Q := foldr insert_sorted [] l.

(** [sum(latencies)] *)
Definition sum (l : list Q) : Q := fold_left Qplus l 0%Q.

(** [sorted(latencies)[int(len(latencies) * c)]] for the double
    [c = m * 2^-53]; [None] stands for the [IndexError] of an index out of
    range. *)
Definition percentile (m : Z) (latencies : list Q) : option Q :=
  sorted latencies !! Z.to_nat (Float.int_mul (Z.of_nat (length latencies)) m).

Record stats := mkStats {
  st_requests_total : Z;
  st_requests_success : Z;
  st_requests_failed : Z;
  success_rate : Q;
  avg_latency_ms : Q;
  p95_latency_ms : Q;
  p99_latency_ms : Q;
  st_bytes_in : Z;
  st_bytes_out : Z
}.

(** [get_stats()]: the returned dictionary, or [None] when one of the two
    index expressions raises. *)
Definition get_stats (m : t) : option stats :=
  let latencies := requests_latency_ms m in
  let rate := (inject_Z (requests_success m)
               / inject_Z (Z.max 1 (requests_total m)))%Q in
  match latencies with
  | [] =>
      Some (mkStats (requests_total m) (requests_success m) (requests_failed m)
              rate 0 0 0 (bytes_in m) (bytes_out m))
  | _ :: _ =>
      let avg := (sum latencies / inject_Z (Z.of_nat (length latencies)))%Q in
      match percentile Float.m95 latencies, percentile Float.m99 latencies with
      | Some p95, Some p99 =>
          Some (mkStats (requests_total m) (requests_success m)
                  (requests_failed m) rate avg p95 p99 (bytes_in m) (bytes_out m))
      | _, _ => None
      end
  end.

(** The latencies 1, 2, ..., 100 of the specification's example. *)
Definition one_to_hundred : list Q :=
  map (fun k => inject_Z (Z.of_nat k)) (seq 1 100).

(** The latency argument of a recorded request. *)
Definition latency_of (req : bool * Q * Z * Z) : Q :=
  let '(_, lat, _, _) := req in lat.

(** The success flag of a recorded request. *)
Definition succeeded (req : bool * Q * Z * Z) : bool :=
  let '(ok, _, _, _) := req in ok.

(** Recording a list of requests, one call each. *)
Definition record_all (reqs : list (bool * Q * Z * Z)) (m : t) : t :=
  fold_left (fun s '(ok, lat, b_in, b_out) => record_request ok lat b_in b_out s)
            reqs m.

End GatewayMetrics.

(** ** APIGatewayManager *)

Inductive GatewayStatus := HEALTHY | DEGRADED | UNHEALTHY | MAINTENANCE.

(** [GatewayStatus.value] *)
Definition status_value (s : GatewayStatus) : string :=
  match s with
  | HEALTHY => "healthy"
  | DEGRADED => "degraded"
  | UNHEALTHY => "unhealthy"
  | MAINTENANCE => "maintenance"
  end.

Record RouteConfig := mkRouteConfig {
  path : string;
  method : string;
  backend_service : string;
  backend_port : Z;
  timeout_ms : Z;
  retry_count : Z;
  circuit_breaker_threshold : Q;
  authentication_required : bool;
  rate_limit_requests : Z;
  rate_limit_window_seconds : Z;
  enabled : bool;
  tags : gmap string string
}.

(** [RouteConfig(path, method, backend_service, backend_port)] with the
    default field values. *)
Definition new_route (p m svc : string) (bport : Z) : RouteConfig :=
  mkRouteConfig p m svc bport 5000 3 (1 # 2) true 1000 60 true ∅.

Module APIGatewayManager.

Record t := mk {
  routes : gmap string RouteConfig;
  services : gmap string (list ServiceInstance);
  circuit_breakers : gmap string CircuitBreaker.t;
  rate_limiters : gmap string RateLimiter.t;
  load_balancers : gmap string LoadBalancer.t;
  metrics : GatewayMetrics.t;
  status : GatewayStatus;
  config_path : string
}.

(** [f"{route.method}:{route.path}"] *)
Definition route_key (route : RouteConfig) : string :=
  method route +:+ ":" +:+ path route.

(** The string has no colon in it. *)
Fixpoint no_colon (s : string) : bool :=
  match s with
  | EmptyString => true
  | String a rest => negb (String.eqb (String a EmptyString) ":") && no_colon rest
  end.

(** [add_route(route)] *)
Definition add_route (route : RouteConfig) (g : t) : t :=
  let key := route_key route in
  mk (<[key := route]> (routes g))
     (services g)
     (circuit_breakers g)
     (match rate_limiters g !! key with
      | Some _ => rate_limiters g
      | None =>
          <[key := RateLimiter.init
                     (mkRateLimitConfig SLIDING_WINDOW
                        (rate_limit_requests route)
                        (rate_limit_window_seconds route) 300)]>
            (rate_limiters g)
      end)
     (match load_balancers g !! backend_service route with
      | Some _ => load_balancers g
      | None => <[backend_service route := LoadBalancer.fresh]> (load_balancers g)
      end)
     (metrics g) (status g) (config_path g).

(** [register_service(service_name, instance)] *)
Definition register_service (service_name : string) (instance : ServiceInstance)
    (g : t) : t :=
  match services g !! service_name with
  | Some instances =>
      mk (routes g) (<[service_name := instances ++ [instance]]> (services g))
         (circuit_breakers g) (rate_limiters g) (load_balancers g)
         (metrics g) (status g) (config_path g)
  | None =>
      mk (routes g) (<[service_name := [instance]]> (services g))
         (<[service_name := CircuitBreaker.fresh]> (circuit_breakers g))
         (rate_limiters g) (load_balancers g)
         (metrics g) (status g) (config_path g)
  end.

(** The count the two nested loops of [health_check] accumulate in
    [healthy_services]: the healthy instances of all services. *)
Definition healthy_services (g : t) : Z :=
  map_fold
    (fun _ instances acc =>
       acc + Z.of_nat (length (List.filter is_healthy instances)))
    0 (services g).

(** [total_services = len(self.services)] *)
Definition total_services (g : t) : Z := Z.of_nat (size (services g)).

(** [health_ratio = healthy_services / (total_services * 2)] *)
Definition health_ratio (g : t) : Q :=
  (inject_Z (healthy_services g) / inject_Z (total_services g * 2))%Q.

Definition set_status (s : GatewayStatus) (g : t) : t :=
  mk (routes g) (services g) (circuit_breakers g) (rate_limiters g)
     (load_balancers g) (metrics g) s (config_path g).

(** [health_check()]: the manager with its new status, and that status. *)
Definition health_check (g : t) : t * GatewayStatus :=
  if total_services g =? 0 then (set_status HEALTHY g, HEALTHY)
  else
    let ratio := health_ratio g in
    let s := if Qltb (3 # 4) ratio then HEALTHY
             else if Qltb (1 # 2) ratio then DEGRADED
             else UNHEALTHY in
    (set_status s g, s).

(** The status as the specification words it, for comparison with
    [health_check]: the ratio of healthy instances to all instances of all
    registered services, healthy above 0.75, degraded above 0.5, unhealthy
    otherwise, and healthy when no service is registered. *)
Definition total_instances (g : t) : Z :=
  map_fold (fun _ instances acc => acc + Z.of_nat (length instances))
           0 (services g).

Definition spec_status (g : t) : GatewayStatus :=
  if total_services g =? 0 then HEALTHY
  else
    let ratio := (inject_Z (healthy_services g) / inject_Z (total_instances g))%Q in
    if Qltb (3 # 4) ratio then HEALTHY
    else if Qltb (1 # 2) ratio then DEGRADED
    else UNHEALTHY.

Record info := mkInfo {
  info_status : string;
  info_routes : Z;
  info_services : Z;
  info_metrics : option GatewayMetrics.stats;
  info_timestamp : string
}.

(** [get_gateway_info()], where [timestamp] is
    [datetime.utcnow().isoformat()]. *)
Definition get_gateway_info (timestamp : string) (g : t) : info :=
  mkInfo (status_value (status g))
         (Z.of_nat (size (routes g)))
         (Z.of_nat (size (services g)))
         (GatewayMetrics.get_stats (metrics g))
         timestamp.

(** [_initialize_defaults()] *)
Definition initialize_defaults (g : t) : t :=
  add_route
    (mkRouteConfig "/api/v1/health" "GET" "health-check" 8080 5000 3 (1 # 2)
       false 1000 60 true ∅)
    g.

(** What [load_config] finds at [config_path]: a file that loads, no file,
    or a file whose reading or parsing raises. *)
Inductive config_file := FileLoaded | FileMissing | FileError.

(** [load_config()]: a loaded file is only logged. *)
Definition load_config (f : config_file) (g : t) : t :=
  match f with
  | FileLoaded => g
  | FileMissing | FileError => initialize_defaults g
  end.

(** [__init__(config_path)] *)
Definition init (cfg : option string) (f : config_file) : t :=
  load_config f
    (mk ∅ ∅ ∅ ∅ ∅ GatewayMetrics.init HEALTHY
        (match cfg with
         | Some p => if String.eqb p "" then "gateway_config.json" else p
         | None => "gateway_config.json"
         end)).

(** The methods of the class, as a caller can invoke them after
    construction. *)
Inductive call :=
| LoadConfig (f : config_file)
| InitializeDefaults
| AddRoute (route : RouteConfig)
| RegisterService (service_name : string) (instance : ServiceInstance)
| HealthCheck
| GetGatewayInfo (timestamp : string).

(** The name under which each method is defined in the class body. *)
Definition method_name (c : call) : string :=
  match c with
  | LoadConfig _ => "load_config"
  | InitializeDefaults => "_initialize_defaults"
  | AddRoute _ => "add_route"
  | RegisterService _ _ => "register_service"
  | HealthCheck => "health_check"
  | GetGatewayInfo _ => "get_gateway_info"
  end.

Definition step (g : t) (c : call) : t :=
  match c with
  | LoadConfig f => load_config f g
  | InitializeDefaults => initialize_defaults g
  | AddRoute route => add_route route g
  | RegisterService name instance => register_service name instance g
  | HealthCheck => fst (health_check g)
  | GetGatewayInfo _ => g
  end.

Definition run (g : t) (cs : list call) : t := fold_left step cs g.

(** The components of a manager are as their constructors left them, and
    they are there for every route and every registered service. *)
Record untouched (g : t) : Prop := mkUntouched {
  limiters_fresh :
    forall key rl, rate_limiters g !! key = Some rl -> RateLimiter.buckets rl = ∅;
  breakers_fresh :
    forall s b, circuit_breakers g !! s = Some b -> b = CircuitBreaker.fresh;
  balancers_fresh :
    forall s lb, load_balancers g !! s = Some lb -> lb = LoadBalancer.fresh;
  metrics_fresh : metrics g = GatewayMetrics.init;
  limiter_per_route : dom (rate_limiters g) = dom (routes g);
  balancer_per_backend :
    forall key route, routes g !! key = Some route ->
      is_Some (load_balancers g !! backend_service route);
  breaker_per_service : dom (circuit_breakers g) = dom (services g)
}.

(** The manager that [main()] builds, when no configuration file exists. *)
Definition main_gateway : t :=
  run (init None FileMissing)
    [ RegisterService "user-service" (new_instance "localhost" 8001);
      RegisterService "user-service" (new_instance "localhost" 8002);
      RegisterService "order-service" (new_instance "localhost" 9001);
      AddRoute (mkRouteConfig "/api/v1/users" "GET" "user-service" 8001 5000 3
                  (1 # 2) true 5000 60 true ∅);
      AddRoute (mkRouteConfig "/api/v1/orders" "POST" "order-service" 9001 5000 2
                  (1 # 2) true 1000 60 true ∅) ].

End APIGatewayManager.

(** * Properties *)

(** ** Comparisons on rationals *)

Lemma Qltb_lt (a b : Q) : Qltb a b = true <-> (a < b)%Q.
Proof.
  unfold Qltb. rewrite negb_true_iff.
  destruct (Qle_bool b a) eqn:E.
  - apply Qle_bool_iff in E. split; [discriminate | intros H; exfalso; lra].
  - split; [intros _ | reflexivity].
    destruct (Qlt_le_dec a b) as [H|H]; [exact H |].
    apply Qle_bool_iff in H. congruence.
Qed.

Lemma Qltb_ge (a b : Q) : Qltb a b = false <-> (b <= a)%Q.
Proof.
  unfold Qltb. rewrite negb_false_iff. apply Qle_bool_iff.
Qed.

(** ** The double-precision quotient *)

Section DoubleFacts.
Import Double.

Lemma pow2_pos (n : Z) : 0 <= n -> 0 < 2 ^ n.
Proof. intros H. apply Z.pow_pos_nonneg; lia. Qed.

Lemma pow2_add (x y : Z) : 0 <= x -> 0 <= y -> 2 ^ (x + y) = 2 ^ x * 2 ^ y.
Proof. intros. apply Z.pow_add_r; assumption. Qed.

Lemma pow2_le (x y : Z) : 0 <= x <= y -> 2 ^ x <= 2 ^ y.
Proof. intros H. apply Z.pow_le_mono_r; lia. Qed.

(** The exponent: [2^ex <= a/b < 2^(ex+1)], for [0 < a <= b]. *)
Lemma floor_log2_spec (a b : Z) :
  0 < a -> a <= b ->
  floor_log2 a b <= 0 /\
  b <= a * 2 ^ (- floor_log2 a b) /\
  a * 2 ^ (- floor_log2 a b) < 2 * b.
Proof.
  intros Ha Hab. unfold floor_log2.
  assert (Hb : 0 < b) by lia.
  pose proof (Z.log2_spec a Ha) as [La Ua].
  pose proof (Z.log2_spec b Hb) as [Lb Ub].
  pose proof (Z.log2_nonneg a) as Na. pose proof (Z.log2_nonneg b) as Nb.
  pose proof (Z.log2_le_mono a b Hab) as Hk.
  set (la := Z.log2 a) in *. set (lb := Z.log2 b) in *.
  replace (Z.max 0 (la - lb)) with 0 by lia.
  replace (Z.max 0 (- (la - lb))) with (lb - la) by lia.
  rewrite Z.pow_0_r, Z.mul_1_r.
  assert (Hs : 2 ^ lb = 2 ^ la * 2 ^ (lb - la)).
  { rewrite <- pow2_add by lia. f_equal; lia. }
  pose proof (pow2_pos (lb - la) ltac:(lia)) as Pd.
  pose proof (pow2_pos la Na) as Pa.
  replace (Z.succ la) with (la + 1) in Ua by lia.
  replace (Z.succ lb) with (lb + 1) in Ub by lia.
  rewrite pow2_add, Z.pow_1_r in Ua, Ub by lia.
  destruct (b <=? a * 2 ^ (lb - la)) eqn:E.
  - apply Z.leb_le in E. replace (- (la - lb)) with (lb - la) by lia.
    split; [lia |]. split; [exact E |]. nia.
  - apply Z.leb_gt in E. replace (- (la - lb - 1)) with ((lb - la) + 1) by lia.
    rewrite pow2_add, Z.pow_1_r by lia.
    split; [lia |]. split; nia.
Qed.

Lemma round_div_bracket (n d : Z) :
  0 <= n -> 0 < d ->
  0 <= round_div n d /\
  2 * round_div n d * d - d <= 2 * n <= 2 * round_div n d * d + d.
Proof.
  intros Hn Hd. unfold round_div.
  pose proof (Z.div_mod n d ltac:(lia)) as Hdm.
  pose proof (Z.mod_pos_bound n d Hd) as Hr.
  pose proof (Z.div_pos n d Hn Hd) as Hq.
  set (q := n / d) in *. set (r := n mod d) in *.
  destruct ((d <? 2 * r) || ((2 * r =? d) && Z.odd q)) eqn:E.
  - assert (d <= 2 * r).
    { apply orb_true_iff in E. destruct E as [E|E].
      - apply Z.ltb_lt in E. lia.
      - apply andb_true_iff in E. destruct E as [E _]. apply Z.eqb_eq in E. lia. }
    split; [lia |]. nia.
  - apply orb_false_iff in E. destruct E as [E _]. apply Z.ltb_ge in E.
    split; [lia |]. nia.
Qed.

(** An integer bound on the quotient bounds the rounded quotient. *)
Lemma round_div_le (n d t : Z) :
  0 <= n -> 0 < d -> n <= t * d -> round_div n d <= t.
Proof.
  intros Hn Hd H. destruct (round_div_bracket n d Hn Hd) as (_ & Hlo & _).
  nia.
Qed.

Lemma round_div_ge (n d t : Z) :
  0 <= n -> 0 < d -> t * d <= n -> t <= round_div n d.
Proof.
  intros Hn Hd H. destruct (round_div_bracket n d Hn Hd) as (_ & _ & Hhi).
  nia.
Qed.

(** For [0 < a <= b] the quotient is at most 1, its exponent is negative,
    and the double is the significand over [2^scale]. *)
Lemma div_unfold (a b : Z) :
  0 < a -> a <= b ->
  52 <= scale a b <= 1074 /\
  scale a b <= 52 - floor_log2 a b /\
  div a b = significand a b # Z.to_pos (2 ^ scale a b).
Proof.
  intros Ha Hab. destruct (floor_log2_spec a b Ha Hab) as (Hex & _).
  unfold scale, significand. split; [lia |]. split; [lia |].
  unfold div. destruct a as [|p|p]; try lia.
  unfold div_pos, value.
  set (e := Z.max (floor_log2 (Z.pos p) b - 52) (-1074)).
  assert (He : e < 0) by (unfold e; lia).
  replace (0 <=? e) with false by (symmetry; apply Z.leb_gt; exact He).
  replace (Z.max 0 (- e)) with (- e) by lia.
  replace (Z.max 0 e) with 0 by lia.
  rewrite Z.pow_0_r, Z.mul_1_r. reflexivity.
Qed.

Lemma significand_le (a b : Z) :
  0 < a -> a <= b -> 0 <= significand a b <= 2 ^ 53.
Proof.
  intros Ha Hab.
  destruct (floor_log2_spec a b Ha Hab) as (Hex & Hlo & Hhi).
  destruct (div_unfold a b Ha Hab) as (Hs & Hs' & _).
  pose proof (pow2_pos (scale a b) ltac:(lia)) as Ps.
  unfold significand. split.
  - apply round_div_bracket; nia.
  - apply round_div_le; [nia | lia |].
    assert (H : 2 ^ (52 - floor_log2 a b) = 2 ^ 52 * 2 ^ (- floor_log2 a b)).
    { rewrite <- pow2_add by lia. f_equal; lia. }
    pose proof (pow2_le (scale a b) (52 - floor_log2 a b) ltac:(lia)) as Hle.
    change (2 ^ 53) with (2 * 2 ^ 52).
    pose proof (pow2_pos 52 ltac:(lia)). nia.
Qed.

Lemma significand_ge (a b : Z) :
  0 < a -> a <= b -> scale a b < 1074 -> 2 ^ 52 <= significand a b.
Proof.
  intros Ha Hab Hnc.
  destruct (floor_log2_spec a b Ha Hab) as (Hex & Hlo & Hhi).
  assert (Hs : scale a b = 52 - floor_log2 a b) by (unfold scale in *; lia).
  unfold significand. apply round_div_ge.
  - pose proof (pow2_pos (scale a b) ltac:(lia)). nia.
  - lia.
  - rewrite Hs. replace (52 - floor_log2 a b) with (52 + - floor_log2 a b) by lia.
    rewrite pow2_add by lia. pose proof (pow2_pos 52 ltac:(lia)). nia.
Qed.

Lemma Qdiv_inject (a b : Z) : 0 < b -> (inject_Z a / inject_Z b == a # Z.to_pos b)%Q.
Proof.
  intros Hb. destruct b as [|p|p]; try lia.
  unfold Qeq, Qdiv, Qmult, Qinv, inject_Z. simpl. lia.
Qed.

Lemma Qmake_le (x y : Z) (p q : Z) :
  0 < p -> 0 < q ->
  ((x # Z.to_pos p) <= (y # Z.to_pos q))%Q <-> x * q <= y * p.
Proof.
  intros Hp Hq. unfold Qle. simpl. rewrite !Z2Pos.id by assumption. reflexivity.
Qed.

Lemma Qmake_lt (x y : Z) (p q : Z) :
  0 < p -> 0 < q ->
  ((x # Z.to_pos p) < (y # Z.to_pos q))%Q <-> x * q < y * p.
Proof.
  intros Hp Hq. unfold Qlt. simpl. rewrite !Z2Pos.id by assumption. reflexivity.
Qed.

(** A double written on the grid of a finer scale [s]. *)
Lemma value_rescale (m e s : Z) :
  0 <= s -> 0 <= e + s ->
  (value m e == (m * 2 ^ (e + s)) # Z.to_pos (2 ^ s))%Q.
Proof.
  intros Hs Hes. unfold value.
  pose proof (pow2_pos s Hs) as Ps.
  destruct (0 <=? e) eqn:E.
  - apply Z.leb_le in E. unfold Qeq, inject_Z. simpl.
    rewrite Z2Pos.id by exact Ps. rewrite pow2_add by lia. lia.
  - apply Z.leb_gt in E. unfold Qeq. simpl.
    pose proof (pow2_pos (- e) ltac:(lia)) as Pe.
    rewrite !Z2Pos.id by assumption.
    assert (H : 2 ^ s = 2 ^ (e + s) * 2 ^ (- e)).
    { rewrite <- pow2_add by lia. f_equal; lia. }
    rewrite H. lia.
Qed.

(** Rounding does not cross a double: a double that is at least the exact
    quotient is at least the rounded one. *)
Lemma div_le_double (a b m e : Z) :
  0 < a -> a <= b ->
  0 <= m < 2 ^ 53 -> -1074 <= e ->
  (inject_Z a / inject_Z b <= value m e)%Q ->
  (div a b <= value m e)%Q.
Proof.
  intros Ha Hab Hm He Hle.
  assert (Hb : 0 < b) by lia.
  destruct (div_unfold a b Ha Hab) as (Hs & Hs' & Hd).
  destruct (floor_log2_spec a b Ha Hab) as (Hex & Hlo & Hhi).
  pose proof (pow2_pos (scale a b) ltac:(lia)) as Ps.
  rewrite Qdiv_inject in Hle by exact Hb.
  destruct (Z_le_gt_dec 0 (e + scale a b)) as [Hc|Hc].
  - rewrite (value_rescale m e (scale a b)) in * by lia.
    rewrite Hd. apply Qmake_le; try assumption.
    apply (proj1 (Qmake_le _ _ _ _ Hb Ps)) in Hle.
    assert (significand a b <= m * 2 ^ (e + scale a b)); [| nia].
    unfold significand. apply round_div_le; [nia | lia | lia].
  - exfalso.
    assert (Hnc : scale a b = 52 - floor_log2 a b) by (unfold scale in *; lia).
    unfold value in Hle. replace (0 <=? e) with false in Hle
      by (symmetry; apply Z.leb_gt; lia).
    pose proof (pow2_pos (- e) ltac:(lia)) as Pe.
    apply (proj1 (Qmake_le _ _ _ _ Hb Pe)) in Hle.
    assert (H1 : 2 ^ (- e) = 2 ^ (- floor_log2 a b) * 2 ^ 53 * 2 ^ (- e - scale a b - 1)).
    { rewrite <- !pow2_add by lia. f_equal; lia. }
    pose proof (pow2_pos (- e - scale a b - 1) ltac:(lia)) as P1.
    pose proof (pow2_pos (- floor_log2 a b) ltac:(lia)) as P2.
    pose proof (pow2_pos 53 ltac:(lia)) as P3.
    rewrite H1 in Hle.
    assert (b * 2 ^ 53 <= a * (2 ^ (- floor_log2 a b) * 2 ^ 53 * 2 ^ (- e - scale a b - 1))).
    { set (u := 2 ^ (- floor_log2 a b)) in *.
      set (v := 2 ^ (- e - scale a b - 1)) in *.
      set (w := 2 ^ 53) in *. nia. }
    nia.
Qed.

Lemma div_self (a : Z) : 0 < a -> (div a a == 1)%Q.
Proof.
  intros Ha.
  destruct (div_unfold a a Ha ltac:(lia)) as (Hs & Hs' & Hd).
  destruct (floor_log2_spec a a Ha ltac:(lia)) as (Hex & Hlo & Hhi).
  assert (Hz : floor_log2 a a = 0).
  { destruct (Z.eq_dec (floor_log2 a a) 0) as [E|E]; [exact E | exfalso].
    assert (H : 2 ^ 1 <= 2 ^ (- floor_log2 a a)) by (apply pow2_le; lia).
    rewrite Z.pow_1_r in H. nia. }
  assert (Hsc : scale a a = 52) by (unfold scale; rewrite Hz; reflexivity).
  rewrite Hd, Hsc.
  assert (Hsig : significand a a = 2 ^ 52).
  { unfold significand. rewrite Hsc. apply Z.le_antisymm.
    - apply round_div_le; [| lia | lia]. pose proof (pow2_pos 52 ltac:(lia)). nia.
    - apply round_div_ge; [| lia | lia]. pose proof (pow2_pos 52 ltac:(lia)). nia. }
  rewrite Hsig. reflexivity.
Qed.

Lemma floor_log2_mono (a b : Z) :
  0 < a -> a <= b -> floor_log2 a (b + 1) <= floor_log2 a b.
Proof.
  intros Ha Hab.
  destruct (floor_log2_spec a b Ha Hab) as (Hex & Hlo & Hhi).
  destruct (floor_log2_spec a (b + 1) Ha ltac:(lia)) as (Hex' & Hlo' & Hhi').
  destruct (Z_le_gt_dec (floor_log2 a (b + 1)) (floor_log2 a b)) as [H|H]; [exact H |].
  exfalso.
  assert (E : 2 ^ (- floor_log2 a b)
              = 2 ^ (- floor_log2 a (b + 1))
                * 2 ^ (floor_log2 a (b + 1) - floor_log2 a b)).
  { rewrite <- pow2_add by lia. f_equal; lia. }
  assert (H2 : 2 ^ 1 <= 2 ^ (floor_log2 a (b + 1) - floor_log2 a b))
    by (apply pow2_le; lia).
  rewrite Z.pow_1_r in H2.
  pose proof (pow2_pos (- floor_log2 a (b + 1)) ltac:(lia)) as P.
  rewrite E in Hhi.
  set (u := 2 ^ (- floor_log2 a (b + 1))) in *.
  set (v := 2 ^ (floor_log2 a (b + 1) - floor_log2 a b)) in *. nia.
Qed.

(** One more success cannot raise the rounded ratio. *)
Lemma div_succ_le (a b : Z) :
  0 < a -> a <= b -> (div a (b + 1) <= div a b)%Q.
Proof.
  intros Ha Hab.
  destruct (div_unfold a b Ha Hab) as (Hs & Hs' & Hd).
  destruct (div_unfold a (b + 1) Ha ltac:(lia)) as (Ht & Ht' & Hd').
  pose proof (floor_log2_mono a b Ha Hab) as Hm.
  assert (Hst : scale a b <= scale a (b + 1)) by (unfold scale; lia).
  pose proof (pow2_pos (scale a b) ltac:(lia)) as Ps.
  pose proof (pow2_pos (scale a (b + 1)) ltac:(lia)) as Pt.
  rewrite Hd, Hd'. apply Qmake_le; try assumption.
  destruct (significand_le a b Ha Hab) as [N2 _].
  destruct (significand_le a (b + 1) Ha ltac:(lia)) as [N1 U1].
  destruct (Z.eq_dec (scale a (b + 1)) (scale a b)) as [E|E].
  - rewrite E in *.
    assert (significand a (b + 1) <= significand a b); [| nia].
    unfold significand in *. rewrite E.
    assert (Hn : 0 <= a * 2 ^ scale a b) by nia.
    destruct (round_div_bracket (a * 2 ^ scale a b) b Hn ltac:(lia)) as (R2 & _ & Hhi).
    destruct (round_div_bracket (a * 2 ^ scale a b) (b + 1) Hn ltac:(lia)) as (R1 & Hlo & _).
    nia.
  - assert (L2 : 2 ^ 52 <= significand a b) by (apply significand_ge; lia).
    assert (Hp : 2 ^ scale a (b + 1)
                 = 2 ^ scale a b * 2 ^ (scale a (b + 1) - scale a b)).
    { rewrite <- pow2_add by lia. f_equal; lia. }
    assert (H2 : 2 ^ 1 <= 2 ^ (scale a (b + 1) - scale a b)) by (apply pow2_le; lia).
    rewrite Z.pow_1_r in H2.
    change (2 ^ 53) with (2 * 2 ^ 52) in U1.
    rewrite Hp.
    set (u := 2 ^ scale a b) in *.
    set (v := 2 ^ (scale a (b + 1) - scale a b)) in *.
    set (w := 2 ^ 52) in *.
    set (x := significand a (b + 1)) in *. set (y := significand a b) in *.
    assert (x * u <= 2 * w * u) by nia.
    assert (2 * w * u <= w * (u * v)) by nia.
    assert (w * (u * v) <= y * (u * v)) by nia.
    lia.
Qed.

End DoubleFacts.

(** ** CircuitBreaker: the transitions of the state machine *)

Section BreakerFacts.
Import CircuitBreaker.

Lemma trips_spec (th : Q) (fc sc : Z) :
  trips th fc sc = true <->
  0 < fc + sc /\ (th < Double.div fc (fc + sc))%Q.
Proof.
  unfold trips. rewrite andb_true_iff, Z.ltb_lt, Qltb_lt. reflexivity.
Qed.

Lemma trips_total_0 (th : Q) (fc sc : Z) : fc + sc = 0 -> trips th fc sc = false.
Proof.
  intros H. unfold trips. rewrite H. reflexivity.
Qed.

Lemma timed_out_spec (now : Q) (b : t) :
  timed_out now b = true <->
  exists lf, last_failure_time b = Some lf /\ ~ (lf == 0)%Q /\
             (inject_Z (timeout_seconds b) < now - lf)%Q.
Proof.
  unfold timed_out, truthy. destruct (last_failure_time b) as [lf|].
  - rewrite andb_true_iff, negb_true_iff, Qltb_lt. split.
    + intros [Hz Hlt]. exists lf. repeat split; [| exact Hlt].
      intros Heq. apply Qeq_bool_iff in Heq. congruence.
    + intros (lf' & Heq & Hnz & Hlt). injection Heq as <-. split; [| exact Hlt].
      destruct (Qeq_bool lf 0) eqn:E; [| reflexivity].
      apply Qeq_bool_iff in E. contradiction.
  - split; [discriminate |]. intros (lf & Heq & _). discriminate.
Qed.

Lemma step_config (b : t) (c : call) :
  threshold (step b c) = threshold b /\
  timeout_seconds (step b c) = timeout_seconds b.
Proof.
  destruct c as [now| |now]; simpl.
  - split; reflexivity.
  - unfold record_success. destruct (state b); split; reflexivity.
  - unfold can_execute. destruct (state b); try (split; reflexivity).
    destruct (timed_out now b); split; reflexivity.
Qed.

Lemma step_last_failure (b : t) (c : call) :
  last_failure_time (step b c) =
  match c with RecordFailure now => Some now | _ => last_failure_time b end.
Proof.
  destruct c as [now| |now]; simpl.
  - reflexivity.
  - unfold record_success. destruct (state b); reflexivity.
  - unfold can_execute. destruct (state b); try reflexivity.
    destruct (timed_out now b); reflexivity.
Qed.

Lemma run_facts (cs : list call) (b : t) :
  threshold (run b cs) = threshold b /\
  timeout_seconds (run b cs) = timeout_seconds b /\
  last_failure_time (run b cs) = last_failure (last_failure_time b) cs.
Proof.
  revert b. induction cs as [|c cs IH]; intros b; [repeat split |].
  change (run b (c :: cs)) with (run (step b c) cs).
  destruct (IH (step b c)) as (H1 & H2 & H3).
  destruct (step_config b c) as [Hth Hto].
  rewrite H1, H2, H3, Hth, Hto, step_last_failure.
  repeat split. destruct c; reflexivity.
Qed.

(** One call from an arbitrary breaker: which transitions can happen and
    what they require. *)
Lemma step_transition (b : t) (c : call) :
  match state b, state (step b c) with
  | closed, closed | open, open | half_open, half_open => True
  | closed, open | half_open, open =>
      exists now, c = RecordFailure now /\
        failure_count (step b c) = failure_count b + 1 /\
        success_count (step b c) = success_count b /\
        trips (threshold b) (failure_count (step b c)) (success_count (step b c)) = true
  | open, half_open =>
      exists now, c = CanExecute now /\ timed_out now b = true /\
        failure_count (step b c) = 0 /\ success_count (step b c) = 0 /\
        snd (can_execute now b) = true
  | half_open, closed =>
      c = RecordSuccess /\
      failure_count (step b c) = 0 /\ success_count (step b c) = 0
  | closed, half_open | open, closed => False
  end.
Proof.
  destruct c as [now| |now]; simpl.
  - unfold record_failure; simpl.
    destruct (trips (threshold b) (failure_count b + 1) (success_count b)) eqn:E;
      destruct (state b); simpl; eauto 10.
  - unfold record_success. destruct (state b); simpl; auto.
  - unfold can_execute. destruct (state b) eqn:Es; simpl; rewrite ?Es; auto.
    destruct (timed_out now b) eqn:E; simpl; rewrite ?Es; auto.
    exists now. rewrite E. auto.
Qed.

Lemma init_run_facts (th : Q) (timeout : Z) (cs : list call) :
  threshold (run (init th timeout) cs) = th /\
  timeout_seconds (run (init th timeout) cs) = timeout /\
  last_failure_time (run (init th timeout) cs) = last_failure None cs.
Proof. apply (run_facts cs (init th timeout)). Qed.

Lemma step_well_formed (b : t) (c : call) : well_formed b -> well_formed (step b c).
Proof.
  unfold well_formed. intros (H1 & H2 & H3 & H4).
  destruct c as [now| |now]; simpl.
  - unfold record_failure. cbn [failure_count success_count last_failure_time state].
    repeat split; try lia; eauto.
  - unfold record_success. destruct (state b) eqn:E;
      cbn [failure_count success_count last_failure_time state];
      repeat split; try lia; try congruence; auto.
  - unfold can_execute. destruct (state b) eqn:E; cbn [fst]; try (rewrite ?E; tauto).
    destruct (timed_out now b); cbn [fst failure_count success_count
                                     last_failure_time state].
    + repeat split; try lia; try discriminate. intros _. apply H3. congruence.
    + rewrite E. tauto.
Qed.

Lemma run_well_formed (cs : list call) (b : t) :
  well_formed b -> well_formed (run b cs).
Proof.
  revert b. induction cs as [|c cs IH]; intros b H; [exact H |].
  apply (IH (step b c)), step_well_formed, H.
Qed.

Lemma init_well_formed (th : Q) (timeout : Z) : well_formed (init th timeout).
Proof.
  unfold well_formed, init. cbn. repeat split; try lia; congruence.
Qed.

(** When the rounded quotient exceeds a double, the exact quotient exceeds
    it too. *)
Lemma double_lt_div_exact (th : Q) (a b : Z) :
  Double.is_double th -> 0 < a -> a <= b ->
  (th < Double.div a b)%Q -> (th < inject_Z a / inject_Z b)%Q.
Proof.
  intros (m & e & Hm & He & Hth) Ha Hab Hlt.
  assert (Hpos : (0 < inject_Z a / inject_Z b)%Q).
  { rewrite Qdiv_inject by lia. unfold Qlt. simpl. lia. }
  destruct (Z_le_gt_dec m 0) as [Hneg|Hp].
  - assert (Hv : (Double.value m e <= 0)%Q).
    { unfold Double.value. destruct (0 <=? e) eqn:E.
      - apply Z.leb_le in E. change 0%Q with (inject_Z 0). rewrite <- Zle_Qle.
        pose proof (pow2_pos e E). nia.
      - unfold Qle. simpl. lia. }
    rewrite Hth. lra.
  - destruct (Qlt_le_dec th (inject_Z a / inject_Z b)) as [H|H]; [exact H | exfalso].
    rewrite Hth in H, Hlt.
    apply (div_le_double a b m e Ha Hab) in H; [lra | lia | lia].
Qed.

(** C2.  After any sequence of calls on a breaker created closed, the next
    call changes the state only as follows.  From closed the breaker opens
    exactly on a [record_failure] after which the total is positive and
    [failure_count / total], the double that Python computes, exceeds the
    threshold; whenever it opens, the exact ratio of the two counters exceeds
    the threshold as well (for a threshold that is a double); with a total of
    0 it stays closed, and it never goes to half-open directly.  From open it
    becomes half-open exactly on a [can_execute] whose clock reading is more
    than [timeout_seconds] past the last recorded failure (a stamp that is
    set and not the zero float); that call zeroes both counters and returns
    true, and open never goes to closed directly.  From half-open it closes
    exactly on a [record_success], which zeroes both counters. *)
Theorem breaker_transitions (th : Q) (timeout : Z) (pre : list call) (c : call) :
  let b := run (init th timeout) pre in
  let b' := step b c in
  (state b = closed ->
     (state b' = open <->
        exists now, c = RecordFailure now /\
          0 < failure_count b' + success_count b' /\
          (th < Double.div (failure_count b')
                  (failure_count b' + success_count b'))%Q) /\
     (Double.is_double th -> state b' = open ->
        exists now, c = RecordFailure now /\
          0 < failure_count b' + success_count b' /\
          (th < inject_Z (failure_count b')
                / inject_Z (failure_count b' + success_count b'))%Q) /\
     (failure_count b' + success_count b' = 0 -> state b' = closed) /\
     state b' <> half_open)
  /\
  (state b = open ->
     (state b' = half_open <->
        exists now lf, c = CanExecute now /\
          last_failure None pre = Some lf /\ ~ (lf == 0)%Q /\
          (inject_Z timeout < now - lf)%Q) /\
     (state b' = half_open ->
        failure_count b' = 0 /\ success_count b' = 0 /\
        exists now, c = CanExecute now /\ snd (can_execute now b) = true) /\
     state b' <> closed)
  /\
  (state b = half_open ->
     (state b' = closed <-> c = RecordSuccess) /\
     (state b' = closed -> failure_count b' = 0 /\ success_count b' = 0)).
Proof.
  intros b b'.
  destruct (init_run_facts th timeout pre) as (Hth & Hto & Hlf).
  fold b in Hth, Hto, Hlf.
  pose proof (step_transition b c) as T. fold b' in T.
  split; [| split]; intros Hs; rewrite Hs in T.
  - split; [| split; [| split]].
    + split.
      * intros Ho. rewrite Ho in T. destruct T as (now & -> & _ & _ & Ht).
        exists now. rewrite Hth in Ht. apply trips_spec in Ht.
        split; [reflexivity | exact Ht].
      * intros (now & -> & Hpos & Hr). subst b'. simpl.
        assert (Ht : trips (threshold b) (failure_count b + 1) (success_count b) = true).
        { rewrite Hth. apply trips_spec. simpl in Hpos, Hr. split; assumption. }
        rewrite Ht. reflexivity.
    + intros Hd Ho. rewrite Ho in T. destruct T as (now & -> & Hf & Hsc & Ht).
      exists now. rewrite Hth in Ht. apply trips_spec in Ht. destruct Ht as [Hpos Ht].
      split; [reflexivity |]. split; [exact Hpos |].
      destruct (run_well_formed pre _ (init_well_formed th timeout)) as (W1 & W2 & _).
      fold b in W1, W2.
      apply (double_lt_div_exact th _ _ Hd); [lia | lia | exact Ht].
    + intros H0. destruct (state b') eqn:E; [reflexivity | | contradiction].
      destruct T as (now & _ & _ & _ & Ht). apply trips_spec in Ht. lia.
    + intros E. rewrite E in T. exact T.
  - split; [| split].
    + split.
      * intros Hh. rewrite Hh in T. destruct T as (now & -> & Ht & _).
        apply timed_out_spec in Ht. destruct Ht as (lf & Hl & Hnz & Hlt).
        exists now, lf. rewrite <- Hlf, <- Hto. auto.
      * intros (now & lf & -> & Hl & Hnz & Hlt). subst b'. simpl.
        unfold can_execute. rewrite Hs.
        assert (Ht : timed_out now b = true).
        { apply timed_out_spec. exists lf. rewrite Hlf, Hto. auto. }
        rewrite Ht. reflexivity.
    + intros Hh. rewrite Hh in T. destruct T as (now & -> & _ & H1 & H2 & H3).
      eauto.
    + intros E. rewrite E in T. exact T.
  - split.
    + split.
      * intros Hc. rewrite Hc in T. apply T.
      * intros ->. subst b'. simpl. unfold record_success. rewrite Hs. reflexivity.
    + intros Hc. rewrite Hc in T. apply T.
Qed.

(** The three transitions of C2 on the default breaker (threshold 0.5,
    timeout 60): one failure at time 100 opens it, a probe at 161 makes it
    half-open, a success closes it.  And at the threshold 0.3, after seven
    successes and two failures, a third failure leaves the breaker closed:
    the double 3/10 is the double 0.3, not above it. *)
Lemma breaker_transitions_witness :
  state (run fresh [RecordFailure 100]) = open /\
  (1 # 2 < inject_Z (failure_count (run fresh [RecordFailure 100]))
           / inject_Z (failure_count (run fresh [RecordFailure 100])
                       + success_count (run fresh [RecordFailure 100])))%Q /\
  state (run fresh [RecordFailure 100; CanExecute 161]) = half_open /\
  state (run fresh [RecordFailure 100; CanExecute 161; RecordSuccess]) = closed /\
  state (step (run (init Double.three_tenths 60)
                   [RecordSuccess; RecordSuccess; RecordSuccess; RecordSuccess;
                    RecordSuccess; RecordSuccess; RecordSuccess;
                    RecordFailure 1; RecordFailure 2])
              (RecordFailure 3)) = closed.
Proof.
  assert (Ho : state (run fresh [RecordFailure 100]) = open).
  { apply (breaker_transitions (1 # 2) 60 [] (RecordFailure 100)); [reflexivity |].
    exists 100%Q. split; [reflexivity |]. split; [reflexivity |].
    vm_compute. reflexivity. }
  split; [exact Ho |]. split; [| split; [| split]].
  - assert (Hd : Double.is_double (1 # 2)).
    { exists 1, (-1). split; [reflexivity |]. split; [lia | reflexivity]. }
    destruct (breaker_transitions (1 # 2) 60 [] (RecordFailure 100)) as (Hc & _).
    destruct (Hc eq_refl) as (_ & Hex & _).
    destruct (Hex Hd Ho) as (now & _ & _ & Hlt). exact Hlt.
  - apply (breaker_transitions (1 # 2) 60 [RecordFailure 100] (CanExecute 161));
      [reflexivity |].
    exists 161%Q, 100%Q. repeat split; try reflexivity.
    intros H. vm_compute in H. discriminate.
  - pose proof (breaker_transitions (1 # 2) 60 [RecordFailure 100; CanExecute 161]) as H.
    apply (H RecordSuccess); reflexivity.
  - destruct (breaker_transitions Double.three_tenths 60
                [RecordSuccess; RecordSuccess; RecordSuccess; RecordSuccess;
                 RecordSuccess; RecordSuccess; RecordSuccess;
                 RecordFailure 1; RecordFailure 2] (RecordFailure 3))
      as (Hclosed & _ & _).
    destruct (Hclosed eq_refl) as (Hiff & _ & _ & Hnh).
    match goal with |- ?s = closed => destruct s eqn:E end.
    + reflexivity.
    + exfalso. destruct (proj1 Hiff eq_refl) as (now & _ & _ & Hlt).
      vm_compute in Hlt. discriminate.
    + exfalso. apply Hnh. reflexivity.
Defined.

End BreakerFacts.

(** ** RateLimiter: the sliding window *)

Section LimiterFacts.
Import RateLimiter.

Lemma prune_all (now : Q) (window : Z) (l : list Q) :
  Forall (fun e => (now - e < inject_Z window)%Q) l -> prune now window l = l.
Proof.
  induction 1 as [|e l He _ IH]; [reflexivity |].
  simpl. apply Qltb_lt in He. rewrite He, IH. reflexivity.
Qed.

Lemma prune_none (now : Q) (window : Z) (l : list Q) :
  Forall (fun e => (inject_Z window <= now - e)%Q) l -> prune now window l = [].
Proof.
  induction 1 as [|e l He _ IH]; [reflexivity |].
  simpl. apply Qltb_ge in He. rewrite He, IH. reflexivity.
Qed.

Lemma prune_In (now : Q) (window : Z) (l : list Q) (e : Q) :
  In e (prune now window l) -> In e l.
Proof. unfold prune. rewrite filter_In. tauto. Qed.

Lemma prune_length (now : Q) (window : Z) (l : list Q) :
  (length (prune now window l) <= length l)%nat.
Proof. apply List.filter_length_le. Qed.

Lemma is_allowed_config (now : Q) (c : string) (rl : t) :
  config (fst (is_allowed now c rl)) = config rl.
Proof. unfold is_allowed. case (_ <? _); reflexivity. Qed.

(** The caller's sequence after a call: pruned, and extended by [now]
    exactly when the call is allowed. *)
Lemma is_allowed_bucket (now : Q) (c : string) (rl : t) :
  let pruned := prune now (window_size_seconds (config rl)) (bucket_of c rl) in
  bucket_of c (fst (is_allowed now c rl)) =
    (if snd (is_allowed now c rl) then pruned ++ [now] else pruned) /\
  snd (is_allowed now c rl) =
    (Z.of_nat (length pruned) <? requests_per_window (config rl)).
Proof.
  unfold is_allowed, bucket_of.
  case (_ <? _); simpl; rewrite lookup_insert_eq; split; reflexivity.
Qed.

Lemma is_allowed_other (now : Q) (c c' : string) (rl : t) :
  c <> c' -> buckets (fst (is_allowed now c rl)) !! c' = buckets rl !! c'.
Proof.
  intros Hne. unfold is_allowed.
  case (_ <? _); simpl; rewrite lookup_insert_ne; auto.
Qed.

Lemma answers_app (c : string) (l1 l2 : list Q) (rl : t) :
  answers c rl (l1 ++ l2) = answers c rl l1 ++ answers c (after c rl l1) l2.
Proof.
  revert rl. induction l1 as [|now l1 IH]; intros rl; [reflexivity |].
  simpl. destruct (is_allowed now c rl) as [rl' a] eqn:E. simpl.
  rewrite IH. reflexivity.
Qed.

Lemma after_config (c : string) (times : list Q) (rl : t) :
  config (after c rl times) = config rl.
Proof.
  revert rl. induction times as [|now times IH]; intros rl; [reflexivity |].
  simpl. fold (after c (fst (is_allowed now c rl)) times).
  rewrite IH. apply is_allowed_config.
Qed.

Lemma after_In (c : string) (times : list Q) (rl : t) (e : Q) :
  In e (bucket_of c (after c rl times)) -> In e (bucket_of c rl) \/ In e times.
Proof.
  revert rl. induction times as [|now times IH]; intros rl; [auto |].
  simpl. fold (after c (fst (is_allowed now c rl)) times).
  intros H. apply IH in H. destruct H as [H|H]; [| auto].
  destruct (is_allowed_bucket now c rl) as [Hb _]. rewrite Hb in H.
  destruct (snd (is_allowed now c rl)).
  - apply in_app_or in H. destruct H as [H|[<-|[]]]; [| auto].
    left. eapply prune_In; eauto.
  - left. eapply prune_In; eauto.
Qed.

(** With every stored and every earlier timestamp still inside the window,
    call number [i] is allowed exactly while fewer than the quota are
    stored. *)
Lemma answers_within (c : string) (times : list Q) (rl : t) :
  (forall t e, In t times -> In e (bucket_of c rl) ->
               (t - e < inject_Z (window_size_seconds (config rl)))%Q) ->
  (forall (i j : nat) ti tj, (i < j)%nat ->
      times !! i = Some ti -> times !! j = Some tj ->
      (tj - ti < inject_Z (window_size_seconds (config rl)))%Q) ->
  answers c rl times =
  map (fun i => Z.of_nat (length (bucket_of c rl) + i) <? requests_per_window (config rl))
      (seq 0 (length times)).
Proof.
  revert rl. induction times as [|now times IH]; intros rl H1 H2; [reflexivity |].
  simpl. destruct (is_allowed now c rl) as [rl' a] eqn:E.
  destruct (is_allowed_bucket now c rl) as [Hb Ha].
  pose proof (is_allowed_config now c rl) as Hc.
  rewrite E in Hb, Ha, Hc. simpl in Hb, Ha, Hc.
  rewrite prune_all in Hb, Ha
    by (apply List.Forall_forall; intros e He; apply (H1 now e); [left; reflexivity | exact He]).
  rewrite Nat.add_0_r, <- Ha. f_equal.
  rewrite IH.
  - rewrite Hc, <- seq_shift, map_map. apply map_ext_in. intros i _.
    rewrite Hb. destruct a.
    + rewrite length_app. simpl. f_equal. lia.
    + symmetry in Ha. apply Z.ltb_ge in Ha.
      transitivity false; [apply Z.ltb_ge | symmetry; apply Z.ltb_ge]; lia.
  - rewrite Hc, Hb. intros t e Ht He. destruct a.
    + apply in_app_or in He. destruct He as [He|[<-|[]]].
      * apply H1; [right |]; assumption.
      * apply list_elem_of_In, list_elem_of_lookup in Ht. destruct Ht as [k Hk].
        apply (H2 0%nat (S k)); [lia | reflexivity | exact Hk].
    + apply H1; [right |]; assumption.
  - rewrite Hc. intros i j ti tj Hij Hi Hj.
    apply (H2 (S i) (S j)); [lia | exact Hi | exact Hj].
Qed.

Lemma map_all_true (f : nat -> bool) (s m : nat) :
  (forall i, (s <= i < s + m)%nat -> f i = true) ->
  map f (seq s m) = replicate m true.
Proof.
  revert s. induction m as [|m IH]; intros s H; [reflexivity |].
  simpl. rewrite H by lia. f_equal. apply IH. intros i Hi. apply H. lia.
Qed.

Lemma quota_then_denied (n : nat) (N : Z) :
  0 <= N ->
  Z.of_nat n = N + 1 ->
  map (fun i => Z.of_nat (0 + i) <? N) (seq 0 n) = replicate (Z.to_nat N) true ++ [false].
Proof.
  intros HN Hn. replace n with (S (Z.to_nat N)) by lia.
  rewrite seq_S, map_app. f_equal.
  - apply map_all_true. intros i Hi. apply Z.ltb_lt. lia.
  - simpl. f_equal. apply Z.ltb_ge. lia.
Qed.

(** C3.  On a limiter with quota N >= 0 and window W, a client with no
    stored timestamp makes N+1 calls, every one less
    than W seconds after each earlier one: the first N are allowed and the
    last is denied.  With N positive, a further call at least W seconds
    after all of them (in particular more than W seconds) is allowed again.
    A denied call stores exactly the pruned sequence for its client, without
    a new timestamp, and leaves the other clients untouched. *)
Theorem rate_limiter_window (rl : t) (c : string) (times : list Q) (later : Q) :
  let N := requests_per_window (config rl) in
  let W := window_size_seconds (config rl) in
  0 <= N ->
  bucket_of c rl = [] ->
  Z.of_nat (length times) = N + 1 ->
  (forall (i j : nat) ti tj, (i < j)%nat ->
      times !! i = Some ti -> times !! j = Some tj ->
      (tj - ti < inject_Z W)%Q) ->
  answers c rl times = replicate (Z.to_nat N) true ++ [false]
  /\
  (0 < N ->
   (forall t, In t times -> (inject_Z W <= later - t)%Q) ->
   answers c rl (times ++ [later]) = replicate (Z.to_nat N) true ++ [false; true])
  /\
  (forall now c0 rl0,
     snd (is_allowed now c0 rl0) = false ->
     bucket_of c0 (fst (is_allowed now c0 rl0))
       = prune now (window_size_seconds (config rl0)) (bucket_of c0 rl0)
     /\ forall c', c0 <> c' ->
          buckets (fst (is_allowed now c0 rl0)) !! c' = buckets rl0 !! c').
Proof.
  intros N W HN Hempty Hlen Hpair.
  assert (HA : answers c rl times = replicate (Z.to_nat N) true ++ [false]).
  { rewrite answers_within.
    - rewrite Hempty. simpl length. apply quota_then_denied; assumption.
    - rewrite Hempty. intros t e _ [].
    - exact Hpair. }
  split; [exact HA |]. split.
  - intros Hpos Hlater. rewrite answers_app, HA, <- app_assoc. do 2 f_equal.
    simpl. destruct (is_allowed later c (after c rl times)) as [rl' a] eqn:E.
    f_equal.
    destruct (is_allowed_bucket later c (after c rl times)) as [_ Ha].
    rewrite E in Ha. simpl in Ha. rewrite Ha, after_config, prune_none.
    + apply Z.ltb_lt. simpl. exact Hpos.
    + apply List.Forall_forall. intros e He. apply after_In in He.
      rewrite Hempty in He. destruct He as [[]|He]. apply Hlater. exact He.
  - intros now c0 rl0 Hd. split.
    + destruct (is_allowed_bucket now c0 rl0) as [Hb _].
      rewrite Hd in Hb. exact Hb.
    + intros c' Hne. apply is_allowed_other. exact Hne.
Qed.

(** C3 at quota 2 and window 60: calls at 0, 1 and 2, then one at 100. *)
Lemma rate_limiter_window_witness :
  let rl := init (mkRateLimitConfig SLIDING_WINDOW 2 60 300) in
  answers "a" rl [0; 1; 2]%Q = [true; true; false] /\
  answers "a" rl [0; 1; 2; 100]%Q = [true; true; false; true].
Proof.
  intros rl.
  assert (Hpair : forall (i j : nat) ti tj, (i < j)%nat ->
            [0; 1; 2]%Q !! i = Some ti -> [0; 1; 2]%Q !! j = Some tj ->
            (tj - ti < inject_Z 60)%Q).
  { intros i j ti tj Hij Hi Hj.
    destruct i as [|[|[|i]]]; destruct j as [|[|[|j]]];
      simpl in Hi, Hj; try discriminate; try lia;
      injection Hi as <-; injection Hj as <-; reflexivity. }
  assert (HN : 0 <= 2) by lia.
  destruct (rate_limiter_window rl "a" [0; 1; 2]%Q 100%Q HN eq_refl eq_refl Hpair)
    as (H1 & H2 & _).
  split; [exact H1 |].
  apply H2; [reflexivity |].
  intros t [<-|[<-|[<-|[]]]]; vm_compute; discriminate.
Defined.

End LimiterFacts.

(** ** RateLimiter: what is stored, and for whom *)

Section LimiterMemory.
Import RateLimiter.

Lemma run_snoc (rl : t) (calls : list (Q * string)) (now : Q) (c : string) :
  run rl (calls ++ [(now, c)]) = fst (is_allowed now c (run rl calls)).
Proof. unfold run. rewrite fold_left_app. reflexivity. Qed.

Lemma run_config (rl : t) (calls : list (Q * string)) :
  config (run rl calls) = config rl.
Proof.
  induction calls as [|[now c] calls IH] using rev_ind; [reflexivity |].
  rewrite run_snoc, is_allowed_config. exact IH.
Qed.

Lemma is_allowed_length (now : Q) (c c' : string) (rl : t) :
  0 <= requests_per_window (config rl) ->
  Z.of_nat (length (bucket_of c' rl)) <= requests_per_window (config rl) ->
  Z.of_nat (length (bucket_of c' (fst (is_allowed now c rl))))
    <= requests_per_window (config rl).
Proof.
  intros HN Hlen. destruct (decide (c = c')) as [<-|Hne].
  - destruct (is_allowed_bucket now c rl) as [Hb Ha]. rewrite Hb, Ha.
    pose proof (prune_length now (window_size_seconds (config rl)) (bucket_of c rl)).
    destruct (_ <? _) eqn:E.
    + apply Z.ltb_lt in E. rewrite length_app. simpl. lia.
    + lia.
  - unfold bucket_of in *. rewrite is_allowed_other by exact Hne. exact Hlen.
Qed.

Lemma is_allowed_dom (now : Q) (c : string) (rl : t) :
  dom (buckets (fst (is_allowed now c rl))) = {[c]} ∪ dom (buckets rl).
Proof.
  unfold is_allowed. case (_ <? _); simpl; apply dom_insert_L.
Qed.

Lemma is_allowed_ignores_cleanup (s : RateLimitStrategy) (N W k1 k2 : Z)
    (now : Q) (c : string) (m : gmap string (list Q)) :
  buckets (fst (is_allowed now c (mk (mkRateLimitConfig s N W k1) m)))
  = buckets (fst (is_allowed now c (mk (mkRateLimitConfig s N W k2) m))).
Proof. unfold is_allowed. simpl. case (_ <? _); reflexivity. Qed.

(** The claim C6 fails on its second half.  Quota 2, window 60, cleanup
    interval 300: client a calls at time 0 and client b at 1000 and 2000.
    At time 2000 client a has no request inside the window, yet its key and
    its stale timestamp are still stored.  With quota 0 the denied call of
    a leaves an empty sequence under its key, and that key stays too. *)
Lemma rate_limiter_keeps_idle_clients :
  let rl := run (init (mkRateLimitConfig SLIDING_WINDOW 2 60 300))
                [(0, "a"); (1000, "b"); (2000, "b")]%Q in
  let rl0 := run (init (mkRateLimitConfig SLIDING_WINDOW 0 60 300))
                 [(0, "a"); (1000, "b"); (2000, "b")]%Q in
  prune 2000 60 (bucket_of "a" rl) = [] /\
  buckets rl !! "a" = Some [0%Q] /\
  buckets rl0 !! "a" = Some [] /\
  ~ (forall c, c ∈ dom (buckets rl0) -> bucket_of c rl0 <> []).
Proof.
  split; [| split; [| split]]; try (vm_compute; reflexivity).
  intros H. apply (H "a"); vm_compute; reflexivity.
Qed.

(** C6, as the code has it.  From a fresh limiter with a quota N >= 0 and
    after any sequence of [is_allowed] calls (the limiter has no other
    operation), every client's stored sequence has at most N entries; the
    keys of the map are exactly the clients that have called so far, so no
    client is ever dropped; [cleanup_interval_seconds] has no influence on
    what is stored; and a call touches the caller's sequence only: what is
    stored for every other client, stale or not, stays exactly as it was, so
    a client's entries are pruned by that client's own calls and by nothing
    else. *)
Theorem rate_limiter_memory (s : RateLimitStrategy) (N W k : Z)
    (calls : list (Q * string)) :
  0 <= N ->
  let rl := run (init (mkRateLimitConfig s N W k)) calls in
  (forall c, Z.of_nat (length (bucket_of c rl)) <= N) /\
  dom (buckets rl) = list_to_set (map snd calls) /\
  (forall k', buckets (run (init (mkRateLimitConfig s N W k')) calls) = buckets rl) /\
  (forall now c c', c <> c' ->
     buckets (fst (is_allowed now c rl)) !! c' = buckets rl !! c') /\
  (forall now c,
     bucket_of c (fst (is_allowed now c rl))
     = prune now W (bucket_of c rl) ++ (if snd (is_allowed now c rl) then [now] else [])).
Proof.
  intros HN rl.
  assert (Hframe : forall now c c', c <> c' ->
            buckets (fst (is_allowed now c rl)) !! c' = buckets rl !! c').
  { intros now c c' Hne. apply is_allowed_other. exact Hne. }
  assert (Hown : forall now c,
            bucket_of c (fst (is_allowed now c rl))
            = prune now W (bucket_of c rl)
              ++ (if snd (is_allowed now c rl) then [now] else [])).
  { intros now c. destruct (is_allowed_bucket now c rl) as [Hb _].
    rewrite Hb. unfold rl. rewrite run_config. cbn [config window_size_seconds].
    destruct (snd (is_allowed now c _)); [reflexivity | rewrite app_nil_r; reflexivity]. }
  cut ((forall c, Z.of_nat (length (bucket_of c rl)) <= N) /\
       dom (buckets rl) = list_to_set (map snd calls) /\
       (forall k', buckets (run (init (mkRateLimitConfig s N W k')) calls) = buckets rl)).
  { intros (H1 & H2 & H3). repeat split; assumption. }
  clear Hframe Hown. subst rl.
  induction calls as [|[now c] calls IH] using rev_ind.
  - split; [| split].
    + intros c. unfold bucket_of. simpl. rewrite lookup_empty. simpl. lia.
    + simpl. apply dom_empty_L.
    + reflexivity.
  - destruct IH as (IH1 & IH2 & IH3). rewrite run_snoc. split; [| split].
    + intros c'.
      pose proof (run_config (init (mkRateLimitConfig s N W k)) calls) as Hc.
      pose proof (is_allowed_length now c c'
                    (run (init (mkRateLimitConfig s N W k)) calls)) as H.
      rewrite Hc in H. simpl in H. apply H; [exact HN | apply IH1].
    + rewrite is_allowed_dom, IH2, map_app, list_to_set_app_L. simpl.
      rewrite (right_id_L ∅ (∪)). apply (comm_L (∪)).
    + intros k'. rewrite run_snoc.
      pose proof (run_config (init (mkRateLimitConfig s N W k)) calls) as Hc.
      pose proof (run_config (init (mkRateLimitConfig s N W k')) calls) as Hc'.
      specialize (IH3 k').
      destruct (run (init (mkRateLimitConfig s N W k)) calls) as [cf m].
      destruct (run (init (mkRateLimitConfig s N W k')) calls) as [cf' m'].
      simpl in *. subst. apply is_allowed_ignores_cleanup.
Qed.

(** C6 as amended, at quota 2 and window 60, with two clients: the bound,
    the keys, and the call of client b at time 1000, which prunes the entry
    of b and leaves the two stale entries of client a where they are. *)
Lemma rate_limiter_memory_witness :
  let rl := run (init (mkRateLimitConfig SLIDING_WINDOW 2 60 300))
                [(0, "a"); (1, "a"); (2, "a"); (3, "b")]%Q in
  (forall c, Z.of_nat (length (bucket_of c rl)) <= 2) /\
  dom (buckets rl) = ({[ "a"; "b" ]} : gset string) /\
  buckets (fst (is_allowed 1000 "b" rl)) !! "a" = Some [0; 1]%Q /\
  bucket_of "b" (fst (is_allowed 1000 "b" rl)) = [1000]%Q.
Proof.
  intros rl.
  assert (HN : 0 <= 2) by lia.
  destruct (rate_limiter_memory SLIDING_WINDOW 2 60 300
              [(0, "a"); (1, "a"); (2, "a"); (3, "b")]%Q HN)
    as (H1 & H2 & _ & H4 & H5).
  split; [exact H1 |]. split; [subst rl; rewrite H2; simpl; set_solver |].
  split.
  - fold rl in H4. rewrite (H4 1000%Q "b" "a") by discriminate.
    vm_compute. reflexivity.
  - fold rl in H5. rewrite (H5 1000%Q "b"). vm_compute. reflexivity.
Defined.

End LimiterMemory.

(** ** LoadBalancer: what [select_instance] returns *)

Section BalancerFacts.
Import LoadBalancer.

Lemma healthy_of_In (instances : list ServiceInstance) (x : ServiceInstance) :
  In x (healthy_of instances) <-> In x instances /\ is_healthy x = true.
Proof. apply filter_In. Qed.

Lemma healthy_of_nil (instances : list ServiceInstance) :
  healthy_of instances = [] <->
  forall x, In x instances -> is_healthy x = false.
Proof.
  split.
  - intros H x Hx. destruct (is_healthy x) eqn:E; [| reflexivity].
    assert (Hin : In x (healthy_of instances)) by (apply healthy_of_In; auto).
    rewrite H in Hin. destruct Hin.
  - intros H. destruct (healthy_of instances) as [|x l] eqn:E; [reflexivity |].
    assert (Hin : In x (healthy_of instances)) by (rewrite E; left; reflexivity).
    apply healthy_of_In in Hin. destruct Hin as [Hin Hh].
    rewrite (H x Hin) in Hh. discriminate.
Qed.

Lemma min_by_connections_In (h0 : ServiceInstance) (rest : list ServiceInstance) :
  In (min_by_connections h0 rest) (h0 :: rest).
Proof.
  unfold min_by_connections. revert h0.
  induction rest as [|x rest IH]; intros h0; [left; reflexivity |].
  simpl fold_left.
  destruct (max_connections x <? max_connections h0).
  - right. apply IH.
  - destruct (IH h0) as [H|H]; [left; exact H | right; right; exact H].
Qed.

Lemma walk_In (r : Q) (acc : Z) (l : list ServiceInstance) (x : ServiceInstance) :
  walk r acc l = Some x -> In x l.
Proof.
  revert acc. induction l as [|i l IH]; intros acc; [discriminate |].
  simpl. destruct (Qle_bool r (inject_Z (acc + weight i))).
  - intros [= <-]. left. reflexivity.
  - intros H. right. eapply IH; eauto.
Qed.

Lemma last_In (l : list ServiceInstance) (d : ServiceInstance) :
  l <> [] -> In (List.last l d) l.
Proof.
  induction l as [|x l IH]; [contradiction |]. intros _.
  destruct l as [|y l]; [left; reflexivity |].
  right. apply IH. discriminate.
Qed.

Lemma select_weighted_In (r : Q) (h0 : ServiceInstance) (rest : list ServiceInstance) :
  In (select_weighted r h0 rest) (h0 :: rest).
Proof.
  unfold select_weighted. destruct (_ =? 0); [left; reflexivity |].
  destruct (walk r 0 (h0 :: rest)) as [x|] eqn:E.
  - eapply walk_In; eauto.
  - apply last_In. discriminate.
Qed.

Lemma round_robin_index (c : Z) (l : list ServiceInstance) :
  l <> [] -> (Z.to_nat (c mod Z.of_nat (length l)) < length l)%nat.
Proof.
  intros Hl. destruct l as [|x l]; [contradiction |].
  pose proof (Z.mod_pos_bound c (Z.of_nat (length (x :: l)))) as H.
  simpl length in *. lia.
Qed.

(** C9.  Whatever the strategy string and the random draw,
    [select_instance] returns [None] exactly when no instance of the list
    is healthy, and an instance it returns is a healthy member of the
    list. *)
Theorem select_instance_healthy (r : Q) (instances : list ServiceInstance)
    (lb : t) :
  (snd (select_instance r instances lb) = None <->
     forall x, In x instances -> is_healthy x = false) /\
  (forall x, snd (select_instance r instances lb) = Some x ->
     In x instances /\ is_healthy x = true).
Proof.
  rewrite <- healthy_of_nil. unfold select_instance.
  destruct (healthy_of instances) as [|h0 rest] eqn:E.
  - split; [split; reflexivity | discriminate].
  - assert (Hsome : forall x, In x (h0 :: rest) -> In x instances /\ is_healthy x = true).
    { intros x Hx. rewrite <- E in Hx. apply healthy_of_In. exact Hx. }
    destruct (String.eqb (strategy lb) "round_robin").
    + cbn [snd].
      pose proof (round_robin_index (current_index lb) (h0 :: rest)) as Hi.
      destruct (lookup_lt_is_Some_2 (h0 :: rest) _ (Hi ltac:(discriminate)))
        as [x Hx].
      rewrite Hx. split; [split; discriminate |].
      intros y [= <-]. apply Hsome, list_elem_of_In, list_elem_of_lookup. eauto.
    + destruct (String.eqb (strategy lb) "least_connections");
        [| destruct (String.eqb (strategy lb) "weighted")]; cbn [snd];
        (split; [split; discriminate |]); intros y [= <-]; apply Hsome.
      * apply min_by_connections_In.
      * apply select_weighted_In.
      * left. reflexivity.
Qed.

(** C9 on a list whose only instance is unhealthy, and on one with a healthy
    instance behind it. *)
Lemma select_instance_healthy_witness :
  let down := mkServiceInstance "d" 4 1 30 1000 None false 0 in
  let up := new_instance "u" 5 in
  snd (select_instance 0 [down] (init "least_connections")) = None /\
  (forall x, snd (select_instance 0 [down; up] (init "least_connections")) = Some x ->
     In x [down; up] /\ is_healthy x = true).
Proof.
  intros down up. split.
  - apply (select_instance_healthy 0 [down] (init "least_connections")).
    intros x [<-|[]]. reflexivity.
  - apply (select_instance_healthy 0 [down; up] (init "least_connections")).
Defined.

(** *** Round robin *)

Lemma select_round_robin (r : Q) (instances : list ServiceInstance) (lb : t) :
  strategy lb = "round_robin" ->
  healthy_of instances <> [] ->
  select_instance r instances lb =
    (mk (strategy lb) (current_index lb + 1),
     healthy_of instances
       !! Z.to_nat (current_index lb mod Z.of_nat (length (healthy_of instances)))).
Proof.
  intros Hs Hne. unfold select_instance.
  destruct (healthy_of instances) as [|h0 rest]; [contradiction |].
  rewrite Hs. reflexivity.
Qed.

Lemma select_many_round_robin (rs : list Q) (n : nat)
    (instances : list ServiceInstance) (lb : t) :
  strategy lb = "round_robin" ->
  healthy_of instances <> [] ->
  select_many rs n instances lb =
    (mk (strategy lb) (current_index lb + Z.of_nat n),
     map (fun i => healthy_of instances
                     !! Z.to_nat ((current_index lb + Z.of_nat i)
                                  mod Z.of_nat (length (healthy_of instances))))
         (seq 0 n)).
Proof.
  intros Hs Hne. revert rs lb Hs.
  induction n as [|n IH]; intros rs lb Hs.
  - simpl. rewrite Z.add_0_r. destruct lb; reflexivity.
  - cbn [select_many]. rewrite select_round_robin by assumption.
    rewrite IH by exact Hs. cbn [strategy current_index].
    f_equal; [f_equal; lia |].
    cbn [seq map]. rewrite Z.add_0_r. f_equal.
    rewrite <- seq_shift, map_map. apply map_ext. intros i.
    do 3 f_equal. lia.
Qed.

Lemma rotate_Permutation (n : nat) (l : list ServiceInstance) :
  rotate n l ≡ₚ l.
Proof.
  unfold rotate. rewrite Permutation_app_comm. rewrite take_drop. reflexivity.
Qed.

(** [K] consecutive indices from any counter value read the list rotated
    by that counter. *)
Lemma round_robin_cycle (c : Z) (l : list ServiceInstance) :
  l <> [] ->
  map (fun i => l !! Z.to_nat ((c + Z.of_nat i) mod Z.of_nat (length l)))
      (seq 0 (length l))
  = map Some (rotate (Z.to_nat (c mod Z.of_nat (length l))) l).
Proof.
  intros Hne.
  assert (HK : 0 < Z.of_nat (length l)) by (destruct l; [contradiction | simpl; lia]).
  apply list_eq. intros i.
  rewrite !list_lookup_fmap.
  destruct (decide (i < length l)%nat) as [Hi|Hi].
  - rewrite lookup_seq_lt by exact Hi. cbn [fmap option_fmap option_map].
    rewrite lookup_rotate_r by exact Hi. cbn [fmap option_fmap option_map].
    unfold rotate_nat_add.
    rewrite Z2Nat.id by (apply Z.mod_pos_bound; exact HK).
    rewrite Zplus_mod_idemp_l. simpl (0 + i)%nat.
    destruct (lookup_lt_is_Some_2 l (Z.to_nat ((c + Z.of_nat i) mod Z.of_nat (length l))))
      as [x Hx].
    { pose proof (Z.mod_pos_bound (c + Z.of_nat i) _ HK). lia. }
    rewrite Hx. reflexivity.
  - rewrite lookup_seq_ge by lia.
    rewrite (lookup_ge_None_2 (rotate _ l)) by (rewrite length_rotate; lia).
    reflexivity.
Qed.

(** C7.  With the round-robin strategy and a fixed instance list whose
    healthy sublist has K >= 1 entries, from any counter value: one call
    returns the healthy instance at index (counter mod K) and adds exactly 1
    to the counter; K consecutive calls add K and return the healthy
    instances rotated by the starting counter, hence each of them exactly
    once. *)
Theorem round_robin_each_once (rs : list Q) (instances : list ServiceInstance)
    (lb : t) :
  strategy lb = "round_robin" ->
  healthy_of instances <> [] ->
  let healthy := healthy_of instances in
  let K := length healthy in
  (forall r,
     current_index (fst (select_instance r instances lb)) = current_index lb + 1 /\
     snd (select_instance r instances lb)
       = healthy !! Z.to_nat (current_index lb mod Z.of_nat K)) /\
  current_index (fst (select_many rs K instances lb))
    = current_index lb + Z.of_nat K /\
  snd (select_many rs K instances lb)
    = map Some (rotate (Z.to_nat (current_index lb mod Z.of_nat K)) healthy) /\
  snd (select_many rs K instances lb) ≡ₚ map Some healthy.
Proof.
  intros Hs Hne healthy K.
  split; [| split; [| split]].
  - intros r. rewrite select_round_robin by assumption. split; reflexivity.
  - rewrite select_many_round_robin by assumption. reflexivity.
  - rewrite select_many_round_robin by assumption. cbn [snd].
    apply round_robin_cycle. exact Hne.
  - rewrite select_many_round_robin by assumption. cbn [snd].
    fold healthy. fold K. unfold K. rewrite round_robin_cycle by exact Hne.
    apply Permutation_map, rotate_Permutation.
Qed.

(** C7 on three healthy instances and one unhealthy one, from counter 7. *)
Lemma round_robin_each_once_witness :
  let a := new_instance "a" 1 in
  let b := new_instance "b" 2 in
  let c := new_instance "c" 3 in
  let down := mkServiceInstance "d" 4 1 30 1000 None false 0 in
  snd (select_many [] 3 [a; down; b; c] (mk "round_robin" 7))
    = [Some b; Some c; Some a] /\
  snd (select_many [] 3 [a; down; b; c] (mk "round_robin" 7))
    ≡ₚ [Some a; Some b; Some c].
Proof.
  intros a b c down.
  assert (Hne : healthy_of [a; down; b; c] <> []) by discriminate.
  destruct (round_robin_each_once [] [a; down; b; c] (mk "round_robin" 7)
              eq_refl Hne) as (_ & _ & H3 & H4).
  split; [exact H3 | exact H4].
Defined.

(** *** Weighted selection *)

Lemma fold_weight_shift (l : list ServiceInstance) (a b : Z) :
  fold_left (fun acc i => acc + weight i) l (a + b)
  = a + fold_left (fun acc i => acc + weight i) l b.
Proof.
  revert b. induction l as [|i l IH]; intros b; [reflexivity |].
  cbn [fold_left]. rewrite <- Z.add_assoc. apply IH.
Qed.

Lemma fold_weight_acc (l : list ServiceInstance) (a : Z) :
  fold_left (fun acc i => acc + weight i) l a = a + total_weight l.
Proof.
  unfold total_weight. rewrite <- fold_weight_shift, Z.add_0_r. reflexivity.
Qed.

Lemma total_weight_cons (i : ServiceInstance) (l : list ServiceInstance) :
  total_weight (i :: l) = weight i + total_weight l.
Proof. unfold total_weight at 1. simpl. apply fold_weight_acc. Qed.

Lemma cumulative_0 (i : ServiceInstance) (l : list ServiceInstance) :
  cumulative (i :: l) 0 = weight i.
Proof.
  unfold cumulative. simpl take. rewrite take_0, total_weight_cons.
  unfold total_weight. simpl. lia.
Qed.

Lemma cumulative_S (i : ServiceInstance) (l : list ServiceInstance) (k : nat) :
  cumulative (i :: l) (S k) = weight i + cumulative l k.
Proof. unfold cumulative. simpl take. apply total_weight_cons. Qed.

(** What the loop returns: the first position whose running sum reaches
    the draw; its weight is positive when the draw is above the sum the
    loop started from. *)
Lemma walk_Some (r : Q) (l : list ServiceInstance) (acc : Z) (x : ServiceInstance) :
  walk r acc l = Some x ->
  exists k, l !! k = Some x /\
    (r <= inject_Z (acc + cumulative l k))%Q /\
    (forall j, (j < k)%nat -> (inject_Z (acc + cumulative l j) < r)%Q) /\
    ((inject_Z acc < r)%Q -> 0 < weight x).
Proof.
  revert acc. induction l as [|i l IH]; intros acc; [discriminate |].
  simpl. destruct (Qle_bool r (inject_Z (acc + weight i))) eqn:E.
  - intros [= <-]. apply Qle_bool_iff in E. exists 0%nat.
    rewrite cumulative_0. repeat split; [exact E | lia |].
    intros Hacc. assert (H : (inject_Z acc < inject_Z (acc + weight i))%Q) by lra.
    rewrite <- Zlt_Qlt in H. lia.
  - intros H. apply IH in H. destruct H as (k & Hk & Hle & Hlt & Hw).
    assert (Hgt : (inject_Z (acc + weight i) < r)%Q).
    { apply Qltb_lt. unfold Qltb. rewrite E. reflexivity. }
    exists (S k). rewrite cumulative_S. repeat split.
    + exact Hk.
    + rewrite Z.add_assoc. exact Hle.
    + intros [|j] Hj.
      * rewrite cumulative_0. exact Hgt.
      * rewrite cumulative_S, Z.add_assoc. apply Hlt. lia.
    + intros _. apply Hw. exact Hgt.
Qed.

Lemma walk_None (r : Q) (l : list ServiceInstance) (acc : Z) :
  walk r acc l = None ->
  l = [] \/ (inject_Z (acc + total_weight l) < r)%Q.
Proof.
  revert acc. induction l as [|i l IH]; intros acc; [left; reflexivity |].
  simpl. destruct (Qle_bool r (inject_Z (acc + weight i))) eqn:E; [discriminate |].
  intros H. right. rewrite total_weight_cons, Z.add_assoc.
  destruct (IH _ H) as [-> | Hlt]; [| exact Hlt].
  unfold total_weight. simpl. rewrite Z.add_0_r.
  apply Qltb_lt. unfold Qltb. rewrite E. reflexivity.
Qed.

Lemma select_weighted_branch (r : Q) (instances : list ServiceInstance) (lb : t)
    (h0 : ServiceInstance) (rest : list ServiceInstance) :
  strategy lb = "weighted" ->
  healthy_of instances = h0 :: rest ->
  select_instance r instances lb = (lb, Some (select_weighted r h0 rest)).
Proof.
  intros Hs Hh. unfold select_instance. rewrite Hh, Hs. reflexivity.
Qed.

(** The claim C5 fails at the draw 0, which lies in [0, total_weight):
    with a healthy instance of weight 0 in front of one of weight 1, the
    loop returns the instance of weight 0. *)
Lemma weighted_draw_0_selects_weight_0 :
  let a := mkServiceInstance "a" 1 0 30 1000 None true 0 in
  let b := mkServiceInstance "b" 2 1 30 1000 None true 0 in
  (0 <= 0 < inject_Z (total_weight (healthy_of [a; b])))%Q /\
  snd (select_instance 0 [a; b] (init "weighted")) = Some a /\
  weight a = 0.
Proof.
  repeat split. vm_compute. discriminate.
Qed.

(** C5, as the code has it.  With the weighted strategy and a non-empty
    healthy list: when the total weight is 0 the first healthy instance is
    returned; otherwise, for every draw r with 0 < r <= total_weight, the
    returned instance is the first one in list order whose cumulative
    weight is at least r, and its weight is positive, so an instance of
    weight 0 is not selected; at the draw 0 the first healthy instance is
    returned when its weight is not negative.  The balancer is unchanged. *)
Theorem weighted_selection (r : Q) (instances : list ServiceInstance) (lb : t)
    (h0 : ServiceInstance) (rest : list ServiceInstance) :
  strategy lb = "weighted" ->
  healthy_of instances = h0 :: rest ->
  let healthy := h0 :: rest in
  let total := total_weight healthy in
  fst (select_instance r instances lb) = lb /\
  (total = 0 -> snd (select_instance r instances lb) = Some h0) /\
  (total <> 0 -> (0 < r)%Q -> (r <= inject_Z total)%Q ->
     exists k x,
       snd (select_instance r instances lb) = Some x /\
       healthy !! k = Some x /\
       (r <= inject_Z (cumulative healthy k))%Q /\
       (forall j, (j < k)%nat -> (inject_Z (cumulative healthy j) < r)%Q) /\
       0 < weight x) /\
  (total <> 0 -> (r == 0)%Q -> 0 <= weight h0 ->
     snd (select_instance r instances lb) = Some h0).
Proof.
  intros Hs Hh healthy total.
  rewrite (select_weighted_branch r instances lb h0 rest Hs Hh). cbn [fst snd].
  unfold select_weighted. fold healthy. fold total.
  split; [reflexivity |]. split; [| split].
  - intros ->. reflexivity.
  - intros Hne Hpos Hle. apply Z.eqb_neq in Hne. rewrite Hne.
    destruct (walk r 0 healthy) as [x|] eqn:E.
    + apply walk_Some in E. destruct E as (k & Hk & H1 & H2 & H3).
      exists k, x. repeat split; auto.
    + apply walk_None in E. destruct E as [E|E]; [discriminate |].
      fold total in E. rewrite Z.add_0_l in E. lra.
  - intros Hne Hr Hw. apply Z.eqb_neq in Hne. rewrite Hne.
    subst healthy. cbn [walk].
    assert (E : Qle_bool r (inject_Z (0 + weight h0)) = true).
    { apply Qle_bool_iff. rewrite Hr. change 0%Q with (inject_Z 0).
      rewrite <- Zle_Qle. lia. }
    rewrite E. reflexivity.
Qed.

(** C5 as amended, on weights 1, 0 and 3 and the draw 2: the instance of
    weight 3 is returned, past the one of weight 0. *)
Lemma weighted_selection_witness :
  let a := mkServiceInstance "a" 1 1 30 1000 None true 0 in
  let z := mkServiceInstance "z" 2 0 30 1000 None true 0 in
  let c := mkServiceInstance "c" 3 3 30 1000 None true 0 in
  exists k x,
    snd (select_instance 2 [a; z; c] (init "weighted")) = Some x /\
    [a; z; c] !! k = Some x /\
    (2 <= inject_Z (cumulative [a; z; c] k))%Q /\
    (forall j, (j < k)%nat -> (inject_Z (cumulative [a; z; c] j) < 2)%Q) /\
    0 < weight x.
Proof.
  intros a z c.
  destruct (weighted_selection 2 [a; z; c] (init "weighted") a [z; c]
              eq_refl eq_refl) as (_ & _ & H & _).
  apply H.
  - discriminate.
  - reflexivity.
  - vm_compute. discriminate.
Defined.

End BalancerFacts.

(** ** GatewayMetrics: the statistics of [get_stats] *)

Section MetricsFacts.
Import GatewayMetrics.

(** *** The percentile index *)

(** On every ring size the product rounded in double precision truncates to
    the exact integer quotient. *)
Lemma int_mul_exact (n : Z) :
  0 <= n <= 10000 ->
  Float.int_mul n Float.m95 = 95 * n / 100 /\
  Float.int_mul n Float.m99 = 99 * n / 100.
Proof.
  intros Hn.
  assert (H : forallb
                (fun k => let z := Z.of_nat k in
                          (Float.int_mul z Float.m95 =? 95 * z / 100)
                          && (Float.int_mul z Float.m99 =? 99 * z / 100))
                (seq 0 (Z.to_nat 10001)) = true)
    by (vm_compute; reflexivity).
  rewrite forallb_forall in H.
  specialize (H (Z.to_nat n)).
  rewrite Z2Nat.id in H by lia.
  assert (Hin : In (Z.to_nat n) (seq 0 (Z.to_nat 10001))) by (apply in_seq; lia).
  apply H in Hin. apply andb_true_iff in Hin.
  rewrite !Z.eqb_eq in Hin. exact Hin.
Qed.

(** *** [sorted] sorts *)

Lemma insert_sorted_perm (x : Q) (l : list Q) :
  Permutation (insert_sorted x l) (x :: l).
Proof.
  induction l as [|y l IH]; simpl; [reflexivity |].
  destruct (Qle_bool x y); [reflexivity |].
  rewrite IH. apply perm_swap.
Qed.

Lemma sorted_perm (l : list Q) : Permutation (sorted l) l.
Proof.
  induction l as [|x l IH]; simpl; [reflexivity |].
  rewrite insert_sorted_perm, IH. reflexivity.
Qed.

Lemma sorted_length (l : list Q) : length (sorted l) = length l.
Proof. apply Permutation_length, sorted_perm. Qed.

Lemma insert_sorted_hd (x y : Q) (l : list Q) :
  (y <= x)%Q -> HdRel Qle y l -> HdRel Qle y (insert_sorted x l).
Proof.
  intros Hyx Hl. destruct l as [|z l]; simpl; [constructor; exact Hyx |].
  destruct (Qle_bool x z); constructor; [exact Hyx |].
  inversion Hl; assumption.
Qed.

Lemma insert_sorted_Sorted (x : Q) (l : list Q) :
  Sorted Qle l -> Sorted Qle (insert_sorted x l).
Proof.
  induction 1 as [|y l Hs IH Hhd]; simpl; [repeat constructor |].
  destruct (Qle_bool x y) eqn:E.
  - apply Qle_bool_iff in E. repeat constructor; assumption.
  - constructor; [exact IH |].
    apply insert_sorted_hd; [| exact Hhd].
    assert (H : (y < x)%Q) by (apply Qltb_lt; unfold Qltb; rewrite E; reflexivity).
    lra.
Qed.

Lemma sorted_Sorted (l : list Q) : Sorted Qle (sorted l).
Proof.
  induction l as [|x l IH]; simpl; [constructor |].
  apply insert_sorted_Sorted, IH.
Qed.

(** Two ascending arrangements of the same elements coincide, when equal
    values among them are identical fractions. *)
Lemma Sorted_perm_unique (l1 l2 : list Q) :
  (forall x y, In x l1 -> In y l1 -> (x == y)%Q -> x = y) ->
  Sorted Qle l1 -> Sorted Qle l2 -> Permutation l1 l2 -> l1 = l2.
Proof.
  revert l2. induction l1 as [|a l1 IH]; intros l2 Hcanon S1 S2 P.
  - apply Permutation_nil in P. congruence.
  - destruct l2 as [|b l2]; [apply Permutation_sym, Permutation_nil in P; discriminate |].
    apply Sorted_StronglySorted in S1; [| intros x y z; apply Qle_trans].
    apply Sorted_StronglySorted in S2; [| intros x y z; apply Qle_trans].
    inversion S1 as [|? ? S1' F1]; subst. inversion S2 as [|? ? S2' F2]; subst.
    assert (Hab : a = b).
    { assert (Ha : In a (b :: l2)) by (eapply Permutation_in; [exact P | left; reflexivity]).
      assert (Hb : In b (a :: l1))
        by (eapply Permutation_in; [apply Permutation_sym; exact P | left; reflexivity]).
      destruct Ha as [Ha|Ha]; [congruence |].
      destruct Hb as [Hb|Hb]; [congruence |].
      rewrite List.Forall_forall in F1, F2.
      apply Hcanon; [left; reflexivity | right; exact Hb |].
      apply Qle_antisym; [apply F1; exact Hb | apply F2; exact Ha]. }
    subst b. f_equal. apply IH.
    + intros x y Hx Hy. apply Hcanon; right; assumption.
    + apply StronglySorted_Sorted; exact S1'.
    + apply StronglySorted_Sorted; exact S2'.
    + eapply Permutation_cons_inv; exact P.
Qed.

(** *** The ring *)

Lemma record_all_snoc (reqs : list (bool * Q * Z * Z)) (ok : bool) (lat : Q)
    (b_in b_out : Z) (m : t) :
  record_all (reqs ++ [(ok, lat, b_in, b_out)]) m
  = record_request ok lat b_in b_out (record_all reqs m).
Proof. unfold record_all. rewrite fold_left_app. reflexivity. Qed.

Lemma record_request_bounded (ok : bool) (lat : Q) (b_in b_out : Z) (m : t) :
  Z.of_nat (length (requests_latency_ms (record_request ok lat b_in b_out m)))
    <= 10000.
Proof.
  unfold record_request. cbn [requests_latency_ms].
  destruct (10000 <? _) eqn:E.
  - apply Z.ltb_lt in E. unfold last_10000. rewrite length_skipn. lia.
  - apply Z.ltb_ge in E. exact E.
Qed.

Lemma ring_bounded (reqs : list (bool * Q * Z * Z)) :
  Z.of_nat (length (requests_latency_ms (record_all reqs init))) <= 10000.
Proof.
  destruct reqs as [|[[[ok lat] b_in] b_out] reqs _] using rev_ind; [simpl; lia |].
  rewrite record_all_snoc. apply record_request_bounded.
Qed.

Lemma record_all_latencies (reqs : list (bool * Q * Z * Z)) (m : t) :
  Z.of_nat (length (requests_latency_ms m) + length reqs) <= 10000 ->
  requests_latency_ms (record_all reqs m)
  = requests_latency_ms m ++ map latency_of reqs.
Proof.
  induction reqs as [|[[[ok lat] b_in] b_out] reqs IH] using rev_ind; intros Hlen.
  - simpl. rewrite app_nil_r. reflexivity.
  - rewrite length_app in Hlen. simpl in Hlen.
    rewrite record_all_snoc. unfold record_request. cbn [requests_latency_ms].
    rewrite IH by lia. rewrite map_app, app_assoc. simpl map.
    destruct (10000 <? _) eqn:E; [| reflexivity].
    apply Z.ltb_lt in E. rewrite !length_app, length_map in E. simpl in E. lia.
Qed.

(** *** Sum and mean *)

Lemma sum_shift (l : list Q) (a : Q) : (fold_left Qplus l a == a + sum l)%Q.
Proof.
  unfold sum. revert a. induction l as [|x l IH]; intros a; simpl; [lra |].
  rewrite (IH (a + x)%Q), (IH (0 + x)%Q). lra.
Qed.

Lemma sum_cons (x : Q) (l : list Q) : (sum (x :: l) == x + sum l)%Q.
Proof. unfold sum at 1. simpl. rewrite sum_shift. lra. Qed.

Lemma sum_Permutation (l l' : list Q) : Permutation l l' -> (sum l == sum l')%Q.
Proof.
  induction 1 as [| x l l' _ IH | x y l | l l' l'' _ IH1 _ IH2].
  - reflexivity.
  - rewrite !sum_cons, IH. reflexivity.
  - rewrite !sum_cons. lra.
  - rewrite IH1. exact IH2.
Qed.

(** *** The percentiles *)

Lemma percentile_exact (lat : list Q) :
  lat <> [] ->
  Z.of_nat (length lat) <= 10000 ->
  let n := Z.of_nat (length lat) in
  (exists p, percentile Float.m95 lat = Some p /\
             sorted lat !! Z.to_nat (95 * n / 100) = Some p) /\
  (exists p, percentile Float.m99 lat = Some p /\
             sorted lat !! Z.to_nat (99 * n / 100) = Some p).
Proof.
  intros Hne Hlen n.
  assert (Hn : 0 < n) by (subst n; destruct lat; [contradiction | simpl; lia]).
  destruct (int_mul_exact n) as [H95 H99]; [lia |].
  unfold percentile. fold n. rewrite H95, H99.
  split.
  - destruct (lookup_lt_is_Some_2 (sorted lat) (Z.to_nat (95 * n / 100))) as [p Hp].
    { rewrite sorted_length.
      assert (95 * n / 100 < n) by (apply Z.div_lt_upper_bound; lia).
      assert (0 <= 95 * n / 100) by (apply Z.div_pos; lia). lia. }
    exists p. split; exact Hp.
  - destruct (lookup_lt_is_Some_2 (sorted lat) (Z.to_nat (99 * n / 100))) as [p Hp].
    { rewrite sorted_length.
      assert (99 * n / 100 < n) by (apply Z.div_lt_upper_bound; lia).
      assert (0 <= 99 * n / 100) by (apply Z.div_pos; lia). lia. }
    exists p. split; exact Hp.
Qed.

Lemma seq_Sorted (s n : nat) :
  Sorted Qle (map (fun k => inject_Z (Z.of_nat k)) (seq s n)).
Proof.
  revert s. induction n as [|n IH]; intros s; simpl; [constructor |].
  constructor; [apply IH |].
  destruct n; simpl; constructor.
  rewrite <- Zle_Qle. lia.
Qed.

Lemma one_to_hundred_Sorted : Sorted Qle one_to_hundred.
Proof. apply seq_Sorted. Qed.

Lemma one_to_hundred_canonical (x y : Q) :
  In x one_to_hundred -> In y one_to_hundred -> (x == y)%Q -> x = y.
Proof.
  unfold one_to_hundred. rewrite !in_map_iff.
  intros (a & <- & _) (b & <- & _) H.
  rewrite inject_Z_injective in H. rewrite H. reflexivity.
Qed.

(** C8.  After any recorded requests the ring holds at most 10000
    latencies and [get_stats] returns a dictionary in which: success_rate is
    requests_success / max(1, requests_total); with an empty ring avg, p95
    and p99 are 0; otherwise avg is the sum of the ring over its length n,
    and p95 and p99 are the entries at the 0-based indices floor(95 n / 100)
    and floor(99 n / 100) of the ring sorted in ascending order.  When the
    recorded latencies are 1, 2, ..., 100 in any order, avg is 50.5, p95
    is 96 and p99 is 100. *)
Theorem get_stats_snapshot (reqs : list (bool * Q * Z * Z)) :
  let m := record_all reqs init in
  let lat := requests_latency_ms m in
  let n := Z.of_nat (length lat) in
  n <= 10000 /\
  Sorted Qle (sorted lat) /\
  Permutation (sorted lat) lat /\
  (exists st,
     get_stats m = Some st /\
     success_rate st
       = (inject_Z (requests_success m) / inject_Z (Z.max 1 (requests_total m)))%Q /\
     (lat = [] ->
        avg_latency_ms st = 0%Q /\ p95_latency_ms st = 0%Q /\
        p99_latency_ms st = 0%Q) /\
     (lat <> [] ->
        avg_latency_ms st = (sum lat / inject_Z n)%Q /\
        sorted lat !! Z.to_nat (95 * n / 100) = Some (p95_latency_ms st) /\
        sorted lat !! Z.to_nat (99 * n / 100) = Some (p99_latency_ms st))) /\
  (Permutation (map latency_of reqs) one_to_hundred ->
   exists st,
     get_stats m = Some st /\
     (avg_latency_ms st == 101 # 2)%Q /\
     p95_latency_ms st = 96%Q /\
     p99_latency_ms st = 100%Q).
Proof.
  intros m lat n.
  assert (Hn : n <= 10000) by apply ring_bounded.
  assert (Hst : exists st,
     get_stats m = Some st /\
     success_rate st
       = (inject_Z (requests_success m) / inject_Z (Z.max 1 (requests_total m)))%Q /\
     (lat = [] ->
        avg_latency_ms st = 0%Q /\ p95_latency_ms st = 0%Q /\
        p99_latency_ms st = 0%Q) /\
     (lat <> [] ->
        avg_latency_ms st = (sum lat / inject_Z n)%Q /\
        sorted lat !! Z.to_nat (95 * n / 100) = Some (p95_latency_ms st) /\
        sorted lat !! Z.to_nat (99 * n / 100) = Some (p99_latency_ms st))).
  { unfold get_stats. fold lat. destruct lat as [|x lat'] eqn:E.
    - eexists. split; [reflexivity |]. cbn. repeat split; congruence.
    - destruct (percentile_exact (x :: lat')) as [(p95 & H95 & L95) (p99 & H99 & L99)];
        [discriminate | exact Hn |].
      rewrite H95, H99. eexists. split; [reflexivity |]. cbn [success_rate
        avg_latency_ms p95_latency_ms p99_latency_ms].
      split; [reflexivity |]. split; [discriminate |].
      intros _. fold n in L95, L99. repeat split; assumption. }
  split; [exact Hn |]. split; [apply sorted_Sorted |].
  split; [apply sorted_perm |]. split; [exact Hst |].
  intros Hperm.
  assert (Hlat : lat = map latency_of reqs).
  { unfold lat, m. rewrite record_all_latencies; [reflexivity |].
    apply Permutation_length in Hperm. rewrite length_map in Hperm.
    simpl length. rewrite Hperm. vm_compute. discriminate. }
  assert (Hlen : n = 100).
  { unfold n. rewrite Hlat, (Permutation_length Hperm). reflexivity. }
  assert (Hsorted : sorted lat = one_to_hundred).
  { symmetry. apply Sorted_perm_unique.
    - apply one_to_hundred_canonical.
    - apply one_to_hundred_Sorted.
    - apply sorted_Sorted.
    - rewrite sorted_perm, Hlat. symmetry. exact Hperm. }
  assert (Hne : lat <> []).
  { intros H0. unfold n in Hlen. rewrite H0 in Hlen. discriminate. }
  destruct Hst as (st & Hg & _ & _ & Hfull).
  destruct (Hfull Hne) as (Havg & H95 & H99).
  exists st. split; [exact Hg |].
  rewrite Hsorted, Hlen in H95, H99.
  split; [| split].
  - rewrite Havg, Hlen. rewrite Hlat, (sum_Permutation _ _ Hperm).
    vm_compute. reflexivity.
  - assert (E : one_to_hundred !! Z.to_nat (95 * 100 / 100) = Some 96%Q)
      by (vm_compute; reflexivity).
    congruence.
  - assert (E : one_to_hundred !! Z.to_nat (99 * 100 / 100) = Some 100%Q)
      by (vm_compute; reflexivity).
    congruence.
Qed.

(** C8 on the latencies 100, 99, ..., 1, recorded in that order. *)
Lemma get_stats_snapshot_witness :
  exists st,
    get_stats (record_all (rev (map (fun q => (true, q, 10, 20)) one_to_hundred)) init)
      = Some st /\
    (avg_latency_ms st == 101 # 2)%Q /\
    p95_latency_ms st = 96%Q /\
    p99_latency_ms st = 100%Q.
Proof.
  apply (get_stats_snapshot (rev (map (fun q => (true, q, 10, 20)) one_to_hundred))).
  rewrite map_rev, map_map. cbn [latency_of]. rewrite map_id.
  symmetry. apply Permutation_rev.
Defined.

End MetricsFacts.

(** ** APIGatewayManager: the status of [health_check] *)

Section HealthFacts.
Import APIGatewayManager.

Lemma ratio_above (a b h n : Z) :
  0 < n -> 0 < b ->
  ((a # Z.to_pos b) < inject_Z h / inject_Z (n * 2))%Q <-> a * (n * 2) < h * b.
Proof.
  intros Hn Hb.
  destruct (n * 2) as [|p|p] eqn:E; try lia.
  destruct b as [|q|q]; try lia.
  unfold Qlt, Qdiv, Qmult, Qinv, inject_Z. simpl.
  rewrite Z.mul_1_r. reflexivity.
Qed.

(** The claim C4 fails on the manager of [main()]: its three instances are
    all healthy, so the ratio of healthy instances to all instances is 1 and
    the stated rule gives healthy, but [health_check] divides by twice the
    number of services, gets 3/4, and answers degraded.  A single service
    with a single healthy instance is reported unhealthy. *)
Lemma health_check_not_instance_ratio :
  healthy_services main_gateway = 3 /\
  total_instances main_gateway = 3 /\
  spec_status main_gateway = HEALTHY /\
  snd (health_check main_gateway) = DEGRADED /\
  snd (health_check
         (register_service "solo" (new_instance "localhost" 8001)
            (init None FileLoaded))) = UNHEALTHY.
Proof. repeat split; vm_compute; reflexivity. Qed.

(** C4, as the code has it.  [health_check] stores and returns a status
    computed from ratio = (healthy instances of all services) / (2 * number
    of registered services): healthy when no service is registered;
    otherwise healthy when ratio > 0.75, degraded when 0.5 < ratio <= 0.75,
    unhealthy when ratio <= 0.5.  In integers, with h healthy instances and
    n services: ratio > 0.75 iff 2 h > 3 n, and ratio > 0.5 iff h > n. *)
Theorem health_check_status (g : t) :
  let h := healthy_services g in
  let n := total_services g in
  let ratio := (inject_Z h / inject_Z (n * 2))%Q in
  fst (health_check g) = set_status (snd (health_check g)) g /\
  (n = 0 -> snd (health_check g) = HEALTHY) /\
  (n <> 0 ->
     ((3 # 4 < ratio)%Q -> snd (health_check g) = HEALTHY) /\
     ((ratio <= 3 # 4)%Q -> (1 # 2 < ratio)%Q -> snd (health_check g) = DEGRADED) /\
     ((ratio <= 1 # 2)%Q -> snd (health_check g) = UNHEALTHY) /\
     ((3 # 4 < ratio)%Q <-> 3 * n < 2 * h) /\
     ((1 # 2 < ratio)%Q <-> n < h)).
Proof.
  intros h n ratio. unfold health_check. fold n.
  destruct (n =? 0) eqn:E.
  - apply Z.eqb_eq in E. split; [reflexivity |]. split; [reflexivity |].
    intros Hne. contradiction.
  - apply Z.eqb_neq in E. split; [reflexivity |]. split; [intros; contradiction |].
    intros _. cbn [snd]. unfold health_ratio. fold h. fold n. fold ratio.
    assert (Hn : 0 < n) by (unfold n, total_services in *; lia).
    split; [| split; [| split; [| split]]].
    + intros H. apply Qltb_lt in H. rewrite H. reflexivity.
    + intros H1 H2. apply Qltb_ge in H1. apply Qltb_lt in H2.
      rewrite H1, H2. reflexivity.
    + intros H. assert (H' : (ratio <= 3 # 4)%Q) by lra.
      apply Qltb_ge in H, H'. rewrite H, H'. reflexivity.
    + unfold ratio. rewrite (ratio_above 3 4 h n Hn) by lia. lia.
    + unfold ratio. rewrite (ratio_above 1 2 h n Hn) by lia. lia.
Qed.

(** C4 as amended, on the manager of [main()]: 3 healthy instances in 2
    services give the ratio 3/4, hence degraded. *)
Lemma health_check_status_witness :
  snd (health_check main_gateway) = DEGRADED.
Proof.
  destruct (health_check_status main_gateway) as (_ & _ & H).
  apply H.
  - vm_compute. discriminate.
  - vm_compute. discriminate.
  - vm_compute. reflexivity.
Defined.

End HealthFacts.

(** ** APIGatewayManager: [add_route] *)

Section RouteFacts.
Import APIGatewayManager.

Lemma route_key_same (r1 r2 : RouteConfig) :
  method r1 = method r2 -> path r1 = path r2 -> route_key r1 = route_key r2.
Proof. unfold route_key. intros -> ->. reflexivity. Qed.

(** C10.  When [add_route] is called again with a route whose method:path
    key is the same (in particular with the same method and path), the
    number of routes does not change, the key now maps to the later
    configuration, the map of rate limiters is the very same (the limiter
    of the key is kept, none is created), and every load balancer that
    existed is kept as it is; the map of load balancers is the same as soon
    as the later backend service name was already known.  Services and
    circuit breakers are untouched. *)
Theorem add_route_twice (r1 r2 : RouteConfig) (g : t) :
  route_key r1 = route_key r2 ->
  let g1 := add_route r1 g in
  let g2 := add_route r2 g1 in
  size (routes g2) = size (routes g1) /\
  routes g2 !! route_key r2 = Some r2 /\
  rate_limiters g2 = rate_limiters g1 /\
  (forall s lb, load_balancers g1 !! s = Some lb -> load_balancers g2 !! s = Some lb) /\
  (is_Some (load_balancers g1 !! backend_service r2) ->
     load_balancers g2 = load_balancers g1) /\
  (backend_service r2 = backend_service r1 ->
     load_balancers g2 = load_balancers g1) /\
  services g2 = services g /\ circuit_breakers g2 = circuit_breakers g.
Proof.
  intros Hk g1 g2.
  assert (Hr1 : is_Some (routes g1 !! route_key r2)).
  { subst g1. unfold add_route. cbn [routes]. rewrite Hk, lookup_insert_eq. eauto. }
  assert (Hl1 : is_Some (rate_limiters g1 !! route_key r2)).
  { subst g1. unfold add_route. cbn [rate_limiters]. rewrite <- Hk.
    destruct (rate_limiters g !! route_key r1) eqn:E; [rewrite E; eauto |].
    rewrite lookup_insert_eq. eauto. }
  assert (Hb1 : is_Some (load_balancers g1 !! backend_service r1)).
  { subst g1. unfold add_route. cbn [load_balancers].
    destruct (load_balancers g !! backend_service r1) eqn:E; [rewrite E; eauto |].
    rewrite lookup_insert_eq. eauto. }
  assert (Hkeep : is_Some (load_balancers g1 !! backend_service r2) ->
                  load_balancers g2 = load_balancers g1).
  { intros [lb Hlb]. subst g2. unfold add_route at 1. cbn [load_balancers].
    rewrite Hlb. reflexivity. }
  split; [| split; [| split; [| split; [| split; [| split]]]]].
  - subst g2. unfold add_route at 1. cbn [routes].
    destruct Hr1 as [r Hr]. rewrite <- (insert_id (routes g1) _ _ Hr) at 2.
    rewrite !map_size_insert. rewrite Hr. reflexivity.
  - subst g2. unfold add_route at 1. cbn [routes]. apply lookup_insert_eq.
  - subst g2. unfold add_route at 1. cbn [rate_limiters].
    destruct Hl1 as [l Hl]. rewrite Hl. reflexivity.
  - intros s lb Hs. subst g2. unfold add_route at 1. cbn [load_balancers].
    destruct (load_balancers g1 !! backend_service r2) eqn:E; [exact Hs |].
    rewrite lookup_insert_ne; [exact Hs |]. intros <-. congruence.
  - exact Hkeep.
  - intros Hsame. apply Hkeep. rewrite Hsame. exact Hb1.
  - split; reflexivity.
Qed.

(** C10 on the default route, added a second time with another port and
    quota: still one route, one limiter (with the first quota), one
    balancer. *)
Lemma add_route_twice_witness :
  let r1 := new_route "/api/v1/health" "GET" "health-check" 8080 in
  let r2 := mkRouteConfig "/api/v1/health" "GET" "health-check" 9090 5000 3
              (1 # 2) false 7 60 true ∅ in
  let g := init None FileLoaded in
  size (routes (add_route r2 (add_route r1 g))) = size (routes (add_route r1 g)) /\
  routes (add_route r2 (add_route r1 g)) !! "GET:/api/v1/health" = Some r2 /\
  rate_limiters (add_route r2 (add_route r1 g)) = rate_limiters (add_route r1 g) /\
  load_balancers (add_route r2 (add_route r1 g)) = load_balancers (add_route r1 g).
Proof.
  intros r1 r2 g.
  destruct (add_route_twice r1 r2 g eq_refl) as (H1 & H2 & H3 & _ & _ & H6 & _).
  split; [exact H1 |]. split; [exact H2 |]. split; [exact H3 |].
  apply H6. reflexivity.
Defined.

End RouteFacts.

(** ** APIGatewayManager: what the registry does with its components *)

Section RegistryFacts.
Import APIGatewayManager.

Lemma untouched_add_route (route : RouteConfig) (g : t) :
  untouched g -> untouched (add_route route g).
Proof.
  intros [H1 H2 H3 H4 H5 H6 H7]. unfold add_route.
  constructor; cbn [rate_limiters circuit_breakers load_balancers metrics routes
                    services]; try assumption.
  - intros key rl. destruct (rate_limiters g !! route_key route) eqn:E; [apply H1 |].
    rewrite lookup_insert. case_decide; [| apply H1].
    intros [= <-]. reflexivity.
  - intros s lb. destruct (load_balancers g !! backend_service route) eqn:E;
      [apply H3 |].
    rewrite lookup_insert. case_decide; [| apply H3].
    intros [= <-]. reflexivity.
  - rewrite (dom_insert_L (routes g)), <- H5.
    destruct (rate_limiters g !! route_key route) eqn:E.
    + apply (elem_of_dom_2 (rate_limiters g)) in E.
      symmetry. apply subseteq_union_1_L, singleton_subseteq_l. exact E.
    + apply dom_insert_L.
  - intros key r. rewrite lookup_insert. case_decide.
    + intros [= <-].
      destruct (load_balancers g !! backend_service route) eqn:E; [rewrite E; eauto |].
      rewrite lookup_insert_eq. eauto.
    + intros Hr. destruct (H6 key r Hr) as [lb Hlb].
      destruct (load_balancers g !! backend_service route) eqn:E; [eauto |].
      rewrite lookup_insert. case_decide; eauto.
Qed.

Lemma untouched_register_service (name : string) (instance : ServiceInstance)
    (g : t) :
  untouched g -> untouched (register_service name instance g).
Proof.
  intros [H1 H2 H3 H4 H5 H6 H7]. unfold register_service.
  destruct (services g !! name) as [instances|] eqn:E;
    constructor; cbn [rate_limiters circuit_breakers load_balancers metrics routes
                      services]; try assumption.
  - rewrite dom_insert_L, H7.
    apply (elem_of_dom_2 (services g)) in E.
    symmetry. apply subseteq_union_1_L, singleton_subseteq_l. exact E.
  - intros s b. rewrite lookup_insert. case_decide; [| apply H2].
    intros [= <-]. reflexivity.
  - rewrite !dom_insert_L, H7. reflexivity.
Qed.

Lemma untouched_set_status (s : GatewayStatus) (g : t) :
  untouched g -> untouched (set_status s g).
Proof. intros [H1 H2 H3 H4 H5 H6 H7]. constructor; assumption. Qed.

Lemma untouched_step (g : t) (c : call) : untouched g -> untouched (step g c).
Proof.
  intros H. destruct c as [f| |route|name instance| |ts]; simpl.
  - destruct f; simpl; [exact H | |]; apply untouched_add_route; exact H.
  - apply untouched_add_route; exact H.
  - apply untouched_add_route; exact H.
  - apply untouched_register_service; exact H.
  - unfold health_check. destruct (_ =? 0); apply untouched_set_status; exact H.
  - exact H.
Qed.

Lemma untouched_init (cfg : option string) (f : config_file) :
  untouched (init cfg f).
Proof.
  unfold init.
  assert (H0 : forall p, untouched (mk ∅ ∅ ∅ ∅ ∅ GatewayMetrics.init HEALTHY p)).
  { intros p.
    constructor; cbn;
      try (intros ? ? Hx; rewrite lookup_empty in Hx; discriminate);
      rewrite ?dom_empty_L; reflexivity. }
  destruct f; simpl; [apply H0 | |]; apply untouched_add_route, H0.
Qed.

(** The claim C1 fails: no method of the class is called admit_and_route,
    and in the manager of [main()], which has the route GET:/api/v1/users on
    the registered service user-service, the limiter of that route has
    seen no client and the balancer of the service has selected nothing. *)
Lemma admit_and_route_absent :
  ~ (exists c : call, method_name c = "admit_and_route") /\
  (exists rl, rate_limiters main_gateway !! "GET:/api/v1/users" = Some rl /\
              RateLimiter.buckets rl = ∅) /\
  load_balancers main_gateway !! "user-service" = Some LoadBalancer.fresh /\
  circuit_breakers main_gateway !! "user-service" = Some CircuitBreaker.fresh.
Proof.
  split; [| split; [| split]].
  - intros [c H]. destruct c; discriminate.
  - eexists. split; [vm_compute; reflexivity | reflexivity].
  - vm_compute. reflexivity.
  - vm_compute. reflexivity.
Qed.

(** C1, as the code has it.  The registry has the methods load_config,
    _initialize_defaults, add_route, register_service, health_check and
    get_gateway_info, and none of them performs an admission.  After any
    sequence of calls on a new manager, every route key has a rate limiter,
    the backend service of every route has a load balancer and every
    registered service has a circuit breaker, and all of them are in their
    initial state: no limiter has recorded a client, every breaker is
    closed with zero counters, every balancer counter is 0, and no request
    was counted. *)
Theorem registry_never_admits (cfg : option string) (f : config_file)
    (cs : list call) :
  let g := run (init cfg f) cs in
  (forall c : call,
     In (method_name c)
        ["load_config"; "_initialize_defaults"; "add_route"; "register_service";
         "health_check"; "get_gateway_info"]) /\
  dom (rate_limiters g) = dom (routes g) /\
  (forall key route, routes g !! key = Some route ->
     is_Some (load_balancers g !! backend_service route)) /\
  dom (circuit_breakers g) = dom (services g) /\
  (forall key rl, rate_limiters g !! key = Some rl -> RateLimiter.buckets rl = ∅) /\
  (forall s b, circuit_breakers g !! s = Some b -> b = CircuitBreaker.fresh) /\
  (forall s lb, load_balancers g !! s = Some lb -> lb = LoadBalancer.fresh) /\
  metrics g = GatewayMetrics.init.
Proof.
  intros g.
  assert (H : untouched g).
  { subst g. unfold run. generalize (untouched_init cfg f).
    generalize (init cfg f). induction cs as [|c cs IH]; intros g0 H0; [exact H0 |].
    simpl. apply IH, untouched_step, H0. }
  destruct H as [H1 H2 H3 H4 H5 H6 H7].
  split; [| repeat split; assumption].
  intros c. destruct c; simpl; tauto.
Qed.

End RegistryFacts.

(** * Further properties of the code *)

(** ** CircuitBreaker: invariants and the recovery cycle *)

Section BreakerMore.
Import CircuitBreaker.

(** X1.  After any sequence of calls on a new breaker both counters are
    non-negative, a breaker that is open or half-open has a failure stamp,
    namely the clock reading of the last [record_failure], and an open
    breaker has counted at least one failure since its counters were last
    reset. *)
Theorem breaker_reachable_invariants (th : Q) (timeout : Z) (cs : list call) :
  let b := run (init th timeout) cs in
  0 <= failure_count b /\ 0 <= success_count b /\
  last_failure_time b = last_failure None cs /\
  (state b <> closed -> exists lf, last_failure None cs = Some lf) /\
  (state b = open -> 1 <= failure_count b).
Proof.
  intros b.
  destruct (run_well_formed cs _ (init_well_formed th timeout)) as (H1 & H2 & H3 & H4).
  destruct (init_run_facts th timeout cs) as (_ & _ & Hlf).
  fold b in H1, H2, H3, H4, Hlf.
  repeat split; try assumption.
  intros Hs. destruct (H3 Hs) as [lf Hx]. exists lf. congruence.
Qed.

Lemma step_closed_not_tripped (b : t) (c : call) :
  (0 <= threshold b)%Q -> well_formed b ->
  (state b = closed -> trips (threshold b) (failure_count b) (success_count b) = false) ->
  state (step b c) = closed ->
  trips (threshold (step b c)) (failure_count (step b c)) (success_count (step b c))
    = false.
Proof.
  intros Hth (H1 & H2 & _) Hinv.
  destruct c as [now| |now]; simpl.
  - unfold record_failure. cbn [failure_count success_count threshold state].
    destruct (trips (threshold b) (failure_count b + 1) (success_count b)) eqn:E;
      [discriminate | reflexivity].
  - unfold record_success. destruct (state b) eqn:E;
      cbn [failure_count success_count threshold state]; intros Hc; try discriminate.
    + specialize (Hinv eq_refl).
      destruct (trips (threshold b) (failure_count b) (success_count b + 1)) eqn:T;
        [| reflexivity].
      exfalso. apply trips_spec in T. destruct T as [Tpos T].
      destruct (Z.eq_dec (failure_count b) 0) as [Hz|Hz].
      * rewrite Hz in T. simpl in T. lra.
      * assert (Hle : (Double.div (failure_count b)
                         (failure_count b + success_count b) <= threshold b)%Q).
        { unfold trips in Hinv. apply andb_false_iff in Hinv.
          destruct Hinv as [Hinv|Hinv]; [apply Z.ltb_ge in Hinv; lia |].
          apply Qltb_ge in Hinv. exact Hinv. }
        pose proof (div_succ_le (failure_count b) (failure_count b + success_count b)
                      ltac:(lia) ltac:(lia)) as Hmono.
        replace (failure_count b + (success_count b + 1))
          with (failure_count b + success_count b + 1) in T by lia.
        lra.
    + reflexivity.
  - unfold can_execute. destruct (state b) eqn:E; cbn [fst]; rewrite ?E;
      try discriminate; auto.
    destruct (timed_out now b); cbn [fst state]; [discriminate |].
    rewrite E. discriminate.
Qed.

(** X2.  With a threshold that is not negative, a breaker reached from
    [__init__] is never closed with a failure ratio above the threshold:
    while it is closed either nothing was counted or
    [failure_count / (failure_count + success_count)], the double that the
    code would compute, is at most the threshold. *)
Theorem breaker_closed_below_threshold (th : Q) (timeout : Z) (cs : list call) :
  (0 <= th)%Q ->
  let b := run (init th timeout) cs in
  state b = closed ->
  failure_count b + success_count b = 0 \/
  (Double.div (failure_count b) (failure_count b + success_count b) <= th)%Q.
Proof.
  intros Hth b Hc.
  assert (H : trips th (failure_count b) (success_count b) = false).
  { subst b. revert Hc. induction cs as [|c cs IH] using rev_ind; [reflexivity |].
    unfold run. rewrite fold_left_app. cbn [fold_left].
    fold (run (init th timeout) cs). intros Hc.
    pose proof (step_closed_not_tripped (run (init th timeout) cs) c) as S.
    destruct (init_run_facts th timeout cs) as (Ht & _).
    destruct (step_config (run (init th timeout) cs) c) as [Ht' _].
    rewrite Ht', Ht in S. apply S; try assumption.
    apply run_well_formed, init_well_formed. }
  unfold trips in H. apply andb_false_iff in H. destruct H as [H|H].
  - left. apply Z.ltb_ge in H.
    destruct (run_well_formed cs _ (init_well_formed th timeout)) as (H1 & H2 & _).
    fold b in H1, H2. lia.
  - right. apply Qltb_ge in H. exact H.
Qed.

(** X2 at the threshold 0.3 after seven successes and three failures: the
    breaker is closed, the exact ratio 3/10 lies above the double 0.3, and
    the double 3/10 is that very double. *)
Lemma breaker_closed_below_threshold_witness :
  let cs := [RecordSuccess; RecordSuccess; RecordSuccess; RecordSuccess;
             RecordSuccess; RecordSuccess; RecordSuccess;
             RecordFailure 1; RecordFailure 2; RecordFailure 3] in
  let b := run (init Double.three_tenths 60) cs in
  state b = closed /\
  (Double.three_tenths < inject_Z (failure_count b)
                         / inject_Z (failure_count b + success_count b))%Q /\
  (failure_count b + success_count b = 0 \/
   (Double.div (failure_count b) (failure_count b + success_count b)
    <= Double.three_tenths)%Q).
Proof.
  intros cs b.
  assert (Hc : state b = closed) by (vm_compute; reflexivity).
  split; [exact Hc |]. split; [vm_compute; reflexivity |].
  apply (breaker_closed_below_threshold Double.three_tenths 60 cs); [| exact Hc].
  vm_compute. discriminate.
Defined.

(** X3.  A threshold of 1 or more switches the breaker off: whatever is
    recorded, the ratio never exceeds it, the breaker stays closed and
    [can_execute] always answers true. *)
Theorem breaker_threshold_one_never_opens (th : Q) (timeout : Z) (cs : list call)
    (now : Q) :
  (1 <= th)%Q ->
  state (run (init th timeout) cs) = closed /\
  snd (can_execute now (run (init th timeout) cs)) = true.
Proof.
  intros Hth.
  assert (Hc : state (run (init th timeout) cs) = closed).
  { induction cs as [|c cs IH] using rev_ind; [reflexivity |].
    unfold run. rewrite fold_left_app. cbn [fold_left].
    fold (run (init th timeout) cs).
    pose proof (step_transition (run (init th timeout) cs) c) as T.
    rewrite IH in T.
    destruct (state (step (run (init th timeout) cs) c)) eqn:E;
      [reflexivity | | contradiction].
    destruct T as (t & _ & Hf & Hs & Ht).
    destruct (init_run_facts th timeout cs) as (Hth' & _).
    destruct (run_well_formed cs _ (init_well_formed th timeout)) as (H1 & H2 & _).
    rewrite Hth' in Ht. apply trips_spec in Ht. destruct Ht as [Hpos Ht].
    rewrite Hf, Hs in Ht, Hpos. exfalso.
    assert (H1' : (Double.div (failure_count (run (init th timeout) cs) + 1)
                     (failure_count (run (init th timeout) cs) + 1
                      + success_count (run (init th timeout) cs))
                   <= Double.value 1 0)%Q).
    { apply div_le_double; try lia.
      rewrite Qdiv_inject by lia. unfold Double.value, Qle. simpl.
      rewrite Z2Pos.id by lia. lia. }
    assert (Hv : (Double.value 1 0 == 1)%Q) by reflexivity.
    rewrite Hv in H1'. lra. }
  split; [exact Hc |]. unfold can_execute. rewrite Hc. reflexivity.
Qed.

(** X3 at threshold 1, after three failures in a row. *)
Lemma breaker_threshold_one_never_opens_witness :
  state (run (init 1 60) [RecordFailure 1; RecordFailure 2; RecordFailure 3]) = closed /\
  snd (can_execute 4 (run (init 1 60) [RecordFailure 1; RecordFailure 2;
                                       RecordFailure 3])) = true.
Proof.
  apply (breaker_threshold_one_never_opens 1 60). vm_compute. discriminate.
Defined.

(** X4.  With a threshold below 1, a failure recorded while no success is
    counted opens the breaker at once, whatever its state: the very first
    failure on a new breaker, and the first failure after the probe that made
    an open breaker half-open. *)
Theorem breaker_lone_failure_opens (b : t) (now later : Q) :
  (threshold b < 1)%Q ->
  0 <= failure_count b ->
  (success_count b = 0 -> state (record_failure now b) = open) /\
  (state b = open -> timed_out now b = true ->
     state (record_failure later (fst (can_execute now b))) = open).
Proof.
  intros Hth Hfc.
  assert (Hone : forall a, 0 < a -> trips (threshold b) a 0 = true).
  { intros a Ha. apply trips_spec. rewrite Z.add_0_r. split; [exact Ha |].
    rewrite (div_self a Ha). exact Hth. }
  split.
  - intros Hsc. unfold record_failure. cbn [state].
    rewrite Hsc, Hone by lia. reflexivity.
  - intros Ho Hto. unfold can_execute. rewrite Ho, Hto. cbn [fst].
    unfold record_failure. cbn [state threshold failure_count success_count].
    rewrite Hone by lia. reflexivity.
Qed.

(** X4 on the default breaker: one failure, and one failed probe. *)
Lemma breaker_lone_failure_opens_witness :
  state (record_failure 100 fresh) = open /\
  state (record_failure 200 (fst (can_execute 161 (record_failure 100 fresh)))) = open.
Proof.
  assert (H0 : 0 <= 0) by lia. assert (H1 : 0 <= 1) by lia.
  split.
  - destruct (breaker_lone_failure_opens fresh 100 0 eq_refl H0) as [H _].
    apply H. reflexivity.
  - destruct (breaker_lone_failure_opens (record_failure 100 fresh) 161 200
                eq_refl H1) as [_ H].
    apply H; reflexivity.
Defined.

(** X5.  An open breaker rejects every [can_execute] up to [timeout_seconds]
    after its failure stamp and is not changed by the rejected call; a
    [can_execute] later than that followed by a [record_success] leaves it
    closed with both counters at zero and the old stamp, and then
    [can_execute] answers true at any time. *)
Theorem breaker_recovery_cycle (b : t) (lf now : Q) :
  state b = open ->
  last_failure_time b = Some lf ->
  ((now - lf <= inject_Z (timeout_seconds b))%Q -> can_execute now b = (b, false)) /\
  (~ (lf == 0)%Q -> (inject_Z (timeout_seconds b) < now - lf)%Q ->
     record_success (fst (can_execute now b))
       = mk (threshold b) (timeout_seconds b) 0 0 (Some lf) closed /\
     forall t, snd (can_execute t (record_success (fst (can_execute now b)))) = true).
Proof.
  intros Ho Hl. split.
  - intros Hle. unfold can_execute. rewrite Ho.
    assert (Ht : timed_out now b = false).
    { unfold timed_out. rewrite Hl. apply andb_false_iff. right.
      apply Qltb_ge. exact Hle. }
    rewrite Ht. reflexivity.
  - intros Hnz Hlt.
    assert (Ht : timed_out now b = true).
    { apply timed_out_spec. exists lf. auto. }
    assert (Hp : fst (can_execute now b)
                 = mk (threshold b) (timeout_seconds b) 0 0 (Some lf) half_open).
    { unfold can_execute. rewrite Ho, Ht, Hl. reflexivity. }
    rewrite Hp. split; [reflexivity |]. intros t. reflexivity.
Qed.

(** X5 on the default breaker opened at time 100: rejected at 160, probed at
    161 and closed by the success. *)
Lemma breaker_recovery_cycle_witness :
  can_execute 160 (record_failure 100 fresh) = (record_failure 100 fresh, false) /\
  record_success (fst (can_execute 161 (record_failure 100 fresh)))
    = mk (1 # 2) 60 0 0 (Some 100%Q) closed.
Proof.
  split.
  - apply (breaker_recovery_cycle (record_failure 100 fresh) 100 160);
      [reflexivity | reflexivity |]. vm_compute. discriminate.
  - apply (breaker_recovery_cycle (record_failure 100 fresh) 100 161);
      [reflexivity | reflexivity | |].
    + intros H. vm_compute in H. discriminate.
    + reflexivity.
Defined.

End BreakerMore.

(** ** RateLimiter: isolation of clients and the window bound *)

Section LimiterMore.
Import RateLimiter.

(** A call reads and writes only the caller's sequence. *)
Lemma is_allowed_local (now : Q) (c : string) (rl1 rl2 : t) :
  config rl1 = config rl2 ->
  bucket_of c rl1 = bucket_of c rl2 ->
  snd (is_allowed now c rl1) = snd (is_allowed now c rl2) /\
  bucket_of c (fst (is_allowed now c rl1)) = bucket_of c (fst (is_allowed now c rl2)).
Proof.
  intros Hc Hb.
  destruct (is_allowed_bucket now c rl1) as [B1 A1].
  destruct (is_allowed_bucket now c rl2) as [B2 A2].
  rewrite B1, B2, A1, A2, Hc, Hb. split; reflexivity.
Qed.

Lemma after_snoc (c : string) (times : list Q) (now : Q) (rl : t) :
  after c rl (times ++ [now]) = fst (is_allowed now c (after c rl times)).
Proof. unfold after. rewrite fold_left_app. reflexivity. Qed.

Lemma own_times_snoc (c : string) (calls : list (Q * string)) (now : Q) (c' : string) :
  own_times c (calls ++ [(now, c')])
  = own_times c calls ++ (if String.eqb c' c then [now] else []).
Proof.
  unfold own_times. rewrite List.filter_app, map_app. cbn [List.filter snd].
  destruct (String.eqb c' c); reflexivity.
Qed.

(** X6.  Clients do not interfere: after any interleaving of calls by any
    clients, the sequence stored for a client, and the answer its next call
    gets, are those it would have after its own calls alone. *)
Theorem rate_limiter_isolation (rl : t) (calls : list (Q * string)) (c : string)
    (now : Q) :
  bucket_of c (run rl calls) = bucket_of c (after c rl (own_times c calls)) /\
  snd (is_allowed now c (run rl calls))
    = snd (is_allowed now c (after c rl (own_times c calls))).
Proof.
  assert (H : bucket_of c (run rl calls) = bucket_of c (after c rl (own_times c calls))).
  { induction calls as [|[t c'] calls IH] using rev_ind; [reflexivity |].
    rewrite run_snoc, own_times_snoc.
    destruct (String.eqb_spec c' c) as [->|Hne].
    - rewrite after_snoc. apply is_allowed_local; [| exact IH].
      rewrite run_config, after_config. reflexivity.
    - rewrite app_nil_r. unfold bucket_of at 1.
      rewrite is_allowed_other by exact Hne. exact IH. }
  split; [exact H |].
  apply is_allowed_local; [| exact H].
  rewrite run_config, after_config. reflexivity.
Qed.

Lemma admitted_snoc (c : string) (times : list Q) (now : Q) (rl : t) :
  admitted c rl (times ++ [now])
  = admitted c rl times
    ++ (if snd (is_allowed now c (after c rl times)) then [now] else []).
Proof.
  revert rl. induction times as [|t times IH]; intros rl.
  - simpl. destruct (is_allowed now c rl) as [rl' a]. destruct a; reflexivity.
  - simpl. destruct (is_allowed t c rl) as [rl' a] eqn:E.
    fold (after c rl' times). replace rl' with (fst (is_allowed t c rl)) by (rewrite E; reflexivity).
    rewrite IH. destruct a; reflexivity.
Qed.

Lemma prune_app (now : Q) (window : Z) (l1 l2 : list Q) :
  prune now window (l1 ++ l2) = prune now window l1 ++ prune now window l2.
Proof. apply List.filter_app. Qed.

(** Pruning at an earlier clock reading loses nothing that pruning at a
    later one keeps. *)
Lemma prune_prune (t now : Q) (window : Z) (l : list Q) :
  (t <= now)%Q -> prune now window (prune t window l) = prune now window l.
Proof.
  intros Hle. induction l as [|x l IH]; [reflexivity |].
  simpl. destruct (Qltb (t - x) (inject_Z window)) eqn:E1.
  - simpl. rewrite IH. reflexivity.
  - rewrite IH. destruct (Qltb (now - x) (inject_Z window)) eqn:E2; [| reflexivity].
    apply Qltb_lt in E2. apply Qltb_ge in E1. lra.
Qed.

(** Seen from a clock reading that no earlier call exceeds, the stored
    sequence holds exactly the admitted requests of the last window. *)
Lemma bucket_is_recent_admitted (c : string) (times : list Q) (rl : t) (now : Q) :
  bucket_of c rl = [] ->
  (forall t, In t times -> (t <= now)%Q) ->
  prune now (window_size_seconds (config rl)) (bucket_of c (after c rl times))
  = prune now (window_size_seconds (config rl)) (admitted c rl times).
Proof.
  intros He. induction times as [|t times IH] using rev_ind; intros Hle.
  - simpl. rewrite He. reflexivity.
  - rewrite after_snoc, admitted_snoc.
    destruct (is_allowed_bucket t c (after c rl times)) as [Hb _].
    rewrite Hb, after_config.
    assert (Ht : (t <= now)%Q) by (apply Hle, in_or_app; right; left; reflexivity).
    assert (IH' : prune now (window_size_seconds (config rl))
                    (bucket_of c (after c rl times))
                  = prune now (window_size_seconds (config rl)) (admitted c rl times)).
    { apply IH. intros x Hx. apply Hle, in_or_app. left. exact Hx. }
    destruct (snd (is_allowed t c (after c rl times))).
    + rewrite !prune_app, prune_prune by exact Ht. rewrite IH'. reflexivity.
    + rewrite prune_prune by exact Ht. rewrite app_nil_r. exact IH'.
Qed.

Lemma after_length (c : string) (times : list Q) (rl : t) :
  0 <= requests_per_window (config rl) ->
  Z.of_nat (length (bucket_of c rl)) <= requests_per_window (config rl) ->
  Z.of_nat (length (bucket_of c (after c rl times))) <= requests_per_window (config rl).
Proof.
  intros HN Hl. induction times as [|t times IH] using rev_ind; [exact Hl |].
  rewrite after_snoc.
  pose proof (is_allowed_length t c c (after c rl times)) as H.
  rewrite after_config in H. apply H; assumption.
Qed.

(** X7.  The sliding-window bound.  A client with no stored timestamp makes
    calls at clock readings none of which exceeds the reading [now] of the
    latest call; the quota is not negative.  Then, counting all calls allowed
    so far including the latest, fewer than [window_size_seconds] before
    [now] there are at most [requests_per_window]. *)
Theorem rate_limiter_window_bound (rl : t) (c : string) (earlier : list Q) (now : Q) :
  0 <= requests_per_window (config rl) ->
  bucket_of c rl = [] ->
  (forall t, In t earlier -> (t <= now)%Q) ->
  Z.of_nat (length (prune now (window_size_seconds (config rl))
                      (admitted c rl (earlier ++ [now]))))
    <= requests_per_window (config rl).
Proof.
  intros HN He Hle.
  rewrite admitted_snoc, prune_app, <- bucket_is_recent_admitted by assumption.
  pose proof (after_length c (earlier ++ [now]) rl HN) as Hlen.
  rewrite He in Hlen. specialize (Hlen ltac:(simpl; lia)).
  rewrite after_snoc in Hlen.
  destruct (is_allowed_bucket now c (after c rl earlier)) as [Hb _].
  rewrite Hb, after_config in Hlen.
  pose proof (prune_length now (window_size_seconds (config rl))
                (if snd (is_allowed now c (after c rl earlier)) then [now] else [])) as Hp.
  rewrite length_app.
  destruct (snd (is_allowed now c (after c rl earlier))).
  - rewrite length_app in Hlen. lia.
  - simpl in *. lia.
Qed.

(** X7 at quota 2 and window 60: five calls, of which those at 0, 10 and 70
    are allowed; at time 70 only the one at 70 is still inside the window
    (the one at 10 is exactly 60 old). *)
Lemma rate_limiter_window_bound_witness :
  let rl := init (mkRateLimitConfig SLIDING_WINDOW 2 60 300) in
  admitted "a" rl [0; 10; 20; 30; 70]%Q = [0; 10; 70]%Q /\
  Z.of_nat (length (prune 70 60 (admitted "a" rl ([0; 10; 20; 30] ++ [70])%Q))) <= 2.
Proof.
  intros rl. split; [vm_compute; reflexivity |].
  assert (HN : 0 <= 2) by lia.
  apply (rate_limiter_window_bound rl "a" [0; 10; 20; 30]%Q 70 HN eq_refl).
  intros t [<-|[<-|[<-|[<-|[]]]]]; vm_compute; discriminate.
Defined.

(** X8.  With a quota of 0 or less nothing is ever admitted: on a limiter
    created with such a quota every call of every client is denied, and every
    stored sequence stays empty. *)
Theorem rate_limiter_no_quota (cfg : RateLimitConfig) (calls : list (Q * string))
    (now : Q) (c : string) :
  requests_per_window cfg <= 0 ->
  snd (is_allowed now c (run (init cfg) calls)) = false /\
  bucket_of c (run (init cfg) calls) = [].
Proof.
  intros HN.
  assert (Hdeny : forall rl t c', config rl = cfg -> snd (is_allowed t c' rl) = false).
  { intros rl t c' Hc. destruct (is_allowed_bucket t c' rl) as [_ Ha].
    rewrite Ha, Hc. apply Z.ltb_ge. lia. }
  assert (Hcfg : forall l, config (run (init cfg) l) = cfg)
    by (intros l; apply (run_config (init cfg) l)).
  split; [apply Hdeny, Hcfg |].
  induction calls as [|[t c'] calls IH] using rev_ind.
  - unfold bucket_of. simpl. rewrite lookup_empty. reflexivity.
  - rewrite run_snoc. destruct (String.eqb_spec c' c) as [->|Hne].
    + destruct (is_allowed_bucket t c (run (init cfg) calls)) as [Hb _].
      rewrite Hb, (Hdeny _ t c (Hcfg calls)), IH. reflexivity.
    + unfold bucket_of in *. rewrite is_allowed_other by exact Hne. exact IH.
Qed.

(** X8 at quota 0. *)
Lemma rate_limiter_no_quota_witness :
  snd (is_allowed 5 "a" (run (init (mkRateLimitConfig SLIDING_WINDOW 0 60 300))
                             [(1, "a"); (2, "b")]%Q)) = false /\
  bucket_of "a" (run (init (mkRateLimitConfig SLIDING_WINDOW 0 60 300))
                     [(1, "a"); (2, "b")]%Q) = [].
Proof.
  apply (rate_limiter_no_quota (mkRateLimitConfig SLIDING_WINDOW 0 60 300)).
  simpl. lia.
Defined.

(** X22.  A denied call leaves no trace on what follows: when a call is
    denied and the client's next call reads a clock that has not gone back,
    that next call gets the same answer and leaves the same stored sequence
    as if the denied call had never been made. *)
Theorem denied_call_leaves_no_trace (rl : t) (c : string) (t now : Q) :
  snd (is_allowed t c rl) = false ->
  (t <= now)%Q ->
  snd (is_allowed now c (fst (is_allowed t c rl))) = snd (is_allowed now c rl) /\
  bucket_of c (fst (is_allowed now c (fst (is_allowed t c rl))))
    = bucket_of c (fst (is_allowed now c rl)).
Proof.
  intros Hd Hle.
  destruct (is_allowed_bucket t c rl) as [Hb _]. rewrite Hd in Hb.
  destruct (is_allowed_bucket now c (fst (is_allowed t c rl))) as [B1 A1].
  destruct (is_allowed_bucket now c rl) as [B2 A2].
  rewrite is_allowed_config, Hb, prune_prune in B1, A1 by exact Hle.
  rewrite B1, B2, A1, A2. split; reflexivity.
Qed.

(** X22 at quota 1 and window 60: the call at 10 is denied, and the call at
    65 is allowed with or without it. *)
Lemma denied_call_leaves_no_trace_witness :
  let rl := fst (is_allowed 0 "a" (init (mkRateLimitConfig SLIDING_WINDOW 1 60 300))) in
  snd (is_allowed 65 "a" (fst (is_allowed 10 "a" rl))) = snd (is_allowed 65 "a" rl).
Proof.
  intros rl.
  apply (denied_call_leaves_no_trace rl "a" 10 65); [reflexivity |].
  vm_compute. discriminate.
Defined.

End LimiterMore.

(** ** LoadBalancer: least connections, the counter, the weighted intervals *)

Section BalancerMore.
Import LoadBalancer.

Lemma min_by_connections_snoc (h0 x : ServiceInstance) (rest : list ServiceInstance) :
  min_by_connections h0 (rest ++ [x])
  = if max_connections x <? max_connections (min_by_connections h0 rest)
    then x else min_by_connections h0 rest.
Proof. unfold min_by_connections. rewrite fold_left_app. reflexivity. Qed.

Lemma min_by_connections_first (h0 : ServiceInstance) (rest : list ServiceInstance) :
  exists k,
    (h0 :: rest) !! k = Some (min_by_connections h0 rest) /\
    (forall y, In y (h0 :: rest) ->
       max_connections (min_by_connections h0 rest) <= max_connections y) /\
    (forall j y, (j < k)%nat -> (h0 :: rest) !! j = Some y ->
       max_connections (min_by_connections h0 rest) < max_connections y).
Proof.
  induction rest as [|x rest IH] using rev_ind.
  - exists 0%nat. repeat split.
    + intros y [<-|[]]. reflexivity.
    + intros j y Hj. lia.
  - destruct IH as (k & Hk & Hmin & Hfirst).
    rewrite min_by_connections_snoc.
    destruct (max_connections x <? max_connections (min_by_connections h0 rest)) eqn:E.
    + apply Z.ltb_lt in E. exists (length (h0 :: rest)). repeat split.
      * rewrite app_comm_cons, lookup_app_r by reflexivity.
        rewrite Nat.sub_diag. reflexivity.
      * intros y Hy. rewrite app_comm_cons in Hy. apply in_app_or in Hy.
        destruct Hy as [Hy|[<-|[]]]; [| lia]. specialize (Hmin y Hy). lia.
      * intros j y Hj Hy. rewrite app_comm_cons, lookup_app_l in Hy by exact Hj.
        apply list_elem_of_lookup_2, list_elem_of_In in Hy.
        specialize (Hmin y Hy). lia.
    + apply Z.ltb_ge in E. exists k. repeat split.
      * rewrite app_comm_cons, lookup_app_l; [exact Hk |].
        apply lookup_lt_Some in Hk. exact Hk.
      * intros y Hy. rewrite app_comm_cons in Hy. apply in_app_or in Hy.
        destruct Hy as [Hy|[<-|[]]]; [apply Hmin; exact Hy | exact E].
      * intros j y Hj Hy. apply (Hfirst j y Hj).
        rewrite app_comm_cons, lookup_app_l in Hy; [exact Hy |].
        apply lookup_lt_Some in Hk. lia.
Qed.

(** X9.  With the strategy least_connections and at least one healthy
    instance, [select_instance] returns the healthy instance whose
    [max_connections] field is least, the first such one in list order, and
    leaves the balancer as it was. *)
Theorem least_connections_first_minimum (r : Q) (instances : list ServiceInstance)
    (lb : t) :
  strategy lb = "least_connections" ->
  healthy_of instances <> [] ->
  exists k x,
    select_instance r instances lb = (lb, Some x) /\
    healthy_of instances !! k = Some x /\
    (forall y, In y instances -> is_healthy y = true ->
       max_connections x <= max_connections y) /\
    (forall j y, (j < k)%nat -> healthy_of instances !! j = Some y ->
       max_connections x < max_connections y).
Proof.
  intros Hs Hne. unfold select_instance.
  destruct (healthy_of instances) as [|h0 rest] eqn:E; [contradiction |].
  rewrite Hs. cbn [String.eqb Ascii.eqb Bool.eqb andb].
  change (String.eqb "least_connections" "round_robin") with false.
  change (String.eqb "least_connections" "least_connections") with true.
  cbv iota.
  destruct (min_by_connections_first h0 rest) as (k & Hk & Hmin & Hfirst).
  exists k, (min_by_connections h0 rest). repeat split; try assumption.
  intros y Hy Hh. apply Hmin. rewrite <- E. apply healthy_of_In. auto.
Qed.

(** X9 with capacities 500, 200, 200 and an unhealthy instance of capacity 1:
    the first instance of capacity 200 is returned. *)
Lemma least_connections_first_minimum_witness :
  let a := mkServiceInstance "a" 1 1 30 500 None true 0 in
  let b := mkServiceInstance "b" 2 1 30 200 None true 0 in
  let c := mkServiceInstance "c" 3 1 30 200 None true 0 in
  let down := mkServiceInstance "d" 4 1 30 1 None false 0 in
  exists k x,
    select_instance 0 [a; down; b; c] (init "least_connections")
      = (init "least_connections", Some x) /\
    healthy_of [a; down; b; c] !! k = Some x /\
    (forall y, In y [a; down; b; c] -> is_healthy y = true ->
       max_connections x <= max_connections y) /\
    (forall j y, (j < k)%nat -> healthy_of [a; down; b; c] !! j = Some y ->
       max_connections x < max_connections y).
Proof.
  intros a b c down.
  apply (least_connections_first_minimum 0 [a; down; b; c] (init "least_connections"));
    [reflexivity | discriminate].
Defined.

(** X10.  [select_instance] never changes the strategy; it moves the counter
    only under round_robin and only when there is a healthy instance, so a
    call that finds no healthy instance returns [None] and changes nothing;
    and a strategy string other than the three known ones returns the first
    healthy instance. *)
Theorem select_instance_state (r : Q) (instances : list ServiceInstance) (lb : t) :
  strategy (fst (select_instance r instances lb)) = strategy lb /\
  (healthy_of instances = [] -> select_instance r instances lb = (lb, None)) /\
  (strategy lb <> "round_robin" -> fst (select_instance r instances lb) = lb) /\
  (strategy lb <> "round_robin" -> strategy lb <> "least_connections" ->
   strategy lb <> "weighted" ->
     snd (select_instance r instances lb) = head (healthy_of instances)).
Proof.
  unfold select_instance.
  destruct (healthy_of instances) as [|h0 rest] eqn:E.
  - repeat split.
  - destruct (String.eqb_spec (strategy lb) "round_robin") as [H1|H1];
      [| destruct (String.eqb_spec (strategy lb) "least_connections") as [H2|H2];
         [| destruct (String.eqb_spec (strategy lb) "weighted") as [H3|H3]]];
      cbn [fst snd strategy]; repeat split;
      try reflexivity; try discriminate; try contradiction; intros; contradiction.
Qed.

Lemma total_weight_app (l1 l2 : list ServiceInstance) :
  total_weight (l1 ++ l2) = total_weight l1 + total_weight l2.
Proof.
  induction l1 as [|i l1 IH]; [unfold total_weight at 2; simpl; lia |].
  rewrite <- app_comm_cons, !total_weight_cons, IH. lia.
Qed.

Lemma total_weight_nonneg (l : list ServiceInstance) :
  (forall y, In y l -> 0 <= weight y) -> 0 <= total_weight l.
Proof.
  induction l as [|i l IH]; intros H; [unfold total_weight; simpl; lia |].
  rewrite total_weight_cons.
  assert (0 <= weight i) by (apply H; left; reflexivity).
  assert (0 <= total_weight l) by (apply IH; intros y Hy; apply H; right; exact Hy).
  lia.
Qed.

Lemma cumulative_le_total (l : list ServiceInstance) (k : nat) :
  (forall y, In y l -> 0 <= weight y) -> cumulative l k <= total_weight l.
Proof.
  intros H. unfold cumulative.
  rewrite <- (take_drop (S k) l) at 2. rewrite total_weight_app.
  assert (0 <= total_weight (drop (S k) l)); [| lia].
  apply total_weight_nonneg. intros y Hy. apply H.
  apply list_elem_of_In. apply list_elem_of_In in Hy.
  eapply (subseteq_drop (S k) l); exact Hy.
Qed.

(** The loop stops at position [k] for every draw in the interval that
    the weight of that position adds to the running sum. *)
Lemma walk_interval (r : Q) (l : list ServiceInstance) (acc : Z) (k : nat)
    (x : ServiceInstance) :
  (forall y, In y l -> 0 <= weight y) ->
  l !! k = Some x ->
  (inject_Z (acc + cumulative l k - weight x) < r)%Q ->
  (r <= inject_Z (acc + cumulative l k))%Q ->
  walk r acc l = Some x.
Proof.
  revert acc k. induction l as [|i l IH]; intros acc k Hnn Hk Hlo Hhi; [discriminate |].
  destruct k as [|k].
  - injection Hk as <-. rewrite cumulative_0 in Hhi. simpl.
    apply Qle_bool_iff in Hhi. rewrite Hhi. reflexivity.
  - simpl in Hk. rewrite cumulative_S in Hlo, Hhi. simpl.
    assert (Hx : weight x <= cumulative l k).
    { unfold cumulative. rewrite (take_S_r l k x Hk), total_weight_app.
      assert (0 <= total_weight (take k l)).
      { apply total_weight_nonneg. intros y Hy. apply Hnn. right.
        apply list_elem_of_In. apply list_elem_of_In in Hy.
        eapply (subseteq_take k l); exact Hy. }
      unfold total_weight at 2. simpl. lia. }
    assert (Hgt : Qle_bool r (inject_Z (acc + weight i)) = false).
    { destruct (Qle_bool r (inject_Z (acc + weight i))) eqn:E; [| reflexivity].
      apply Qle_bool_iff in E.
      assert (Hz : (inject_Z (acc + (weight i + cumulative l k) - weight x)
                    < inject_Z (acc + weight i))%Q) by lra.
      rewrite <- Zlt_Qlt in Hz. lia. }
    rewrite Hgt. apply (IH (acc + weight i) k).
    + intros y Hy. apply Hnn. right. exact Hy.
    + exact Hk.
    + replace (acc + weight i + cumulative l k - weight x)
        with (acc + (weight i + cumulative l k) - weight x) by lia. exact Hlo.
    + replace (acc + weight i + cumulative l k)
        with (acc + (weight i + cumulative l k)) by lia. exact Hhi.
Qed.

(** X11.  With the weighted strategy and healthy instances whose weights are
    not negative, the healthy instance at position k is returned for every
    draw r in the interval (c - w, c], where w is its weight and c the
    cumulative weight up to and including it: each instance owns an interval
    of draws as long as its weight. *)
Theorem weighted_selection_interval (r : Q) (instances : list ServiceInstance)
    (lb : t) (k : nat) (x : ServiceInstance) :
  strategy lb = "weighted" ->
  (forall y, In y instances -> is_healthy y = true -> 0 <= weight y) ->
  healthy_of instances !! k = Some x ->
  (inject_Z (cumulative (healthy_of instances) k - weight x) < r)%Q ->
  (r <= inject_Z (cumulative (healthy_of instances) k))%Q ->
  select_instance r instances lb = (lb, Some x).
Proof.
  intros Hs Hnn Hk Hlo Hhi.
  assert (Hnn' : forall y, In y (healthy_of instances) -> 0 <= weight y).
  { intros y Hy. apply healthy_of_In in Hy. apply Hnn; tauto. }
  destruct (healthy_of instances) as [|h0 rest] eqn:E; [discriminate |].
  rewrite (select_weighted_branch r instances lb h0 rest Hs E).
  do 2 f_equal. unfold select_weighted.
  assert (Hw : walk r 0 (h0 :: rest) = Some x).
  { apply (walk_interval r (h0 :: rest) 0 k x Hnn' Hk); rewrite ?Z.add_0_l; assumption. }
  rewrite Hw.
  assert (Hpos : 0 < total_weight (h0 :: rest)).
  { pose proof (cumulative_le_total (h0 :: rest) k Hnn') as Hc.
    assert (Hz : (inject_Z (cumulative (h0 :: rest) k - weight x)
                  < inject_Z (cumulative (h0 :: rest) k))%Q) by lra.
    rewrite <- Zlt_Qlt in Hz.
    assert (Hx : weight x <= cumulative (h0 :: rest) k).
    { unfold cumulative. rewrite (take_S_r (h0 :: rest) k x Hk), total_weight_app.
      assert (0 <= total_weight (take k (h0 :: rest))).
      { apply total_weight_nonneg. intros y Hy. apply Hnn'.
        apply list_elem_of_In. apply list_elem_of_In in Hy.
        eapply (subseteq_take k (h0 :: rest)); exact Hy. }
      unfold total_weight at 2. simpl. lia. }
    lia. }
  destruct (total_weight (h0 :: rest) =? 0) eqn:Ez; [| reflexivity].
  apply Z.eqb_eq in Ez. lia.
Qed.

(** X11 on the weights 1 and 3: the draw 1/2 returns the first instance,
    the draw 4 the second. *)
Lemma weighted_selection_interval_witness :
  let a := mkServiceInstance "a" 1 1 30 1000 None true 0 in
  let b := mkServiceInstance "b" 2 3 30 1000 None true 0 in
  select_instance (1 # 2) [a; b] (init "weighted") = (init "weighted", Some a) /\
  select_instance 4 [a; b] (init "weighted") = (init "weighted", Some b).
Proof.
  intros a b.
  assert (Hnn : forall y, In y [a; b] -> is_healthy y = true -> 0 <= weight y).
  { intros y [<-|[<-|[]]] _; simpl; lia. }
  split.
  - apply (weighted_selection_interval (1 # 2) [a; b] (init "weighted") 0 a
             eq_refl Hnn eq_refl); vm_compute; reflexivity || discriminate.
  - apply (weighted_selection_interval 4 [a; b] (init "weighted") 1 b
             eq_refl Hnn eq_refl); vm_compute; reflexivity || discriminate.
Defined.

End BalancerMore.

(** ** GatewayMetrics: counters, the ring, the order of the percentiles *)

Section MetricsMore.
Import GatewayMetrics.

Lemma record_all_counters (reqs : list (bool * Q * Z * Z)) :
  let m := record_all reqs init in
  requests_total m = Z.of_nat (length reqs) /\
  requests_success m = Z.of_nat (length (List.filter succeeded reqs)) /\
  requests_failed m
    = Z.of_nat (length (List.filter (fun req => negb (succeeded req)) reqs)).
Proof.
  induction reqs as [|[[[ok lat] b_in] b_out] reqs IH] using rev_ind.
  - repeat split.
  - destruct IH as (H1 & H2 & H3). cbv zeta. rewrite record_all_snoc.
    unfold record_request. cbn [requests_total requests_success requests_failed].
    rewrite H1, H2, H3, !List.filter_app, !length_app. cbn [List.filter succeeded].
    destruct ok; simpl; repeat split; lia.
Qed.

Lemma rate_bounds (s t : Z) :
  0 <= s <= t ->
  (0 <= inject_Z s / inject_Z (Z.max 1 t) <= 1)%Q.
Proof.
  intros H. destruct (Z.max 1 t) as [|p|p] eqn:E; try lia.
  assert (Hs : s <= Zpos p) by lia.
  unfold Qle, Qdiv, Qmult, Qinv, inject_Z. simpl. lia.
Qed.

(** X12.  After any recorded requests, requests_total is their number,
    requests_success the number of those flagged successful and
    requests_failed the number of the others, so the two add up to the total;
    and the success rate that [get_stats] computes lies between 0 and 1. *)
Theorem metrics_counters (reqs : list (bool * Q * Z * Z)) :
  let m := record_all reqs init in
  requests_total m = Z.of_nat (length reqs) /\
  requests_success m = Z.of_nat (length (List.filter succeeded reqs)) /\
  requests_success m + requests_failed m = requests_total m /\
  (0 <= inject_Z (requests_success m) / inject_Z (Z.max 1 (requests_total m)) <= 1)%Q.
Proof.
  intros m. destruct (record_all_counters reqs) as (H1 & H2 & H3). fold m in H1, H2, H3.
  pose proof (List.filter_length succeeded reqs) as Hsplit.
  pose proof (List.filter_length_le succeeded reqs) as Hle.
  split; [exact H1 |]. split; [exact H2 |]. split; [lia |].
  apply rate_bounds. lia.
Qed.

Lemma last_10000_short (l : list Q) :
  Z.of_nat (length l) <= 10000 -> last_10000 l = l.
Proof.
  intros H. unfold last_10000.
  replace (Z.to_nat (Z.of_nat (length l) - 10000)) with 0%nat by lia. reflexivity.
Qed.

Lemma last_10000_snoc (l : list Q) (x : Q) :
  last_10000 (last_10000 l ++ [x]) = last_10000 (l ++ [x]).
Proof.
  destruct (Z_le_gt_dec (Z.of_nat (length l)) 10000) as [H|H].
  - rewrite (last_10000_short l H). reflexivity.
  - unfold last_10000. rewrite !length_app, length_skipn. cbn [length].
    replace (Z.to_nat (Z.of_nat (length l - Z.to_nat (Z.of_nat (length l) - 10000) + 1)
                       - 10000)) with 1%nat by lia.
    rewrite !skipn_app, length_skipn.
    replace (1 - (length l - Z.to_nat (Z.of_nat (length l) - 10000)))%nat with 0%nat by lia.
    replace (Z.to_nat (Z.of_nat (length l + 1) - 10000) - length l)%nat with 0%nat by lia.
    rewrite drop_drop. do 2 f_equal. lia.
Qed.

(** X13.  The ring is first-in first-out with capacity 10000: after any
    recorded requests it holds, in recording order, the latencies of the last
    10000 of them (all of them while there are no more than 10000). *)
Theorem metrics_ring_fifo (reqs : list (bool * Q * Z * Z)) :
  requests_latency_ms (record_all reqs init) = last_10000 (map latency_of reqs) /\
  (Z.of_nat (length reqs) <= 10000 ->
     requests_latency_ms (record_all reqs init) = map latency_of reqs).
Proof.
  assert (H : requests_latency_ms (record_all reqs init)
              = last_10000 (map latency_of reqs)).
  { induction reqs as [|[[[ok lat] b_in] b_out] reqs IH] using rev_ind; [reflexivity |].
    rewrite record_all_snoc. unfold record_request. cbn [requests_latency_ms].
    rewrite IH, map_app. cbn [map latency_of].
    destruct (10000 <? _) eqn:E.
    - apply last_10000_snoc.
    - apply Z.ltb_ge in E. rewrite <- last_10000_snoc.
      symmetry. apply last_10000_short. exact E. }
  split; [exact H |].
  intros Hlen. rewrite H. apply last_10000_short. rewrite length_map. exact Hlen.
Qed.

(** X13 on three requests. *)
Lemma metrics_ring_fifo_witness :
  requests_latency_ms
    (record_all [(true, 5%Q, 0, 0); (false, 3%Q, 0, 0); (true, 9%Q, 0, 0)] init)
  = [5; 3; 9]%Q.
Proof.
  apply (metrics_ring_fifo [(true, 5%Q, 0, 0); (false, 3%Q, 0, 0); (true, 9%Q, 0, 0)]).
  simpl. lia.
Defined.

Lemma Sorted_lookup_le (l : list Q) (i j : nat) (a b : Q) :
  Sorted Qle l -> (i <= j)%nat -> l !! i = Some a -> l !! j = Some b -> (a <= b)%Q.
Proof.
  intros Hs. apply Sorted_StronglySorted in Hs; [| intros x y z; apply Qle_trans].
  revert i j. induction Hs as [|x l Hs IH Hx]; intros i j Hij Hi Hj; [discriminate |].
  destruct i as [|i], j as [|j]; simpl in Hi, Hj; try lia.
  - injection Hi as <-. injection Hj as <-. apply Qle_refl.
  - injection Hi as <-. rewrite List.Forall_forall in Hx. apply Hx.
    apply list_elem_of_In, list_elem_of_lookup. eauto.
  - apply (IH i j); [lia | assumption | assumption].
Qed.

(** X14.  Whenever the ring is not empty, the p95 and p99 that [get_stats]
    reports are latencies that are in the ring, and p95 <= p99. *)
Theorem percentiles_ordered (reqs : list (bool * Q * Z * Z)) (st : stats) :
  requests_latency_ms (record_all reqs init) <> [] ->
  get_stats (record_all reqs init) = Some st ->
  (p95_latency_ms st <= p99_latency_ms st)%Q /\
  In (p95_latency_ms st) (requests_latency_ms (record_all reqs init)) /\
  In (p99_latency_ms st) (requests_latency_ms (record_all reqs init)).
Proof.
  intros Hne Hg. unfold get_stats in Hg.
  set (lat := requests_latency_ms (record_all reqs init)) in *.
  destruct (percentile_exact lat Hne (ring_bounded reqs))
    as [(p95 & H95 & L95) (p99 & H99 & L99)].
  destruct lat as [|x lat'] eqn:E; [contradiction |].
  rewrite H95, H99 in Hg. injection Hg as <-.
  cbn [p95_latency_ms p99_latency_ms].
  assert (Hin : forall p k, sorted (x :: lat') !! k = Some p -> In p (x :: lat')).
  { intros p k Hk. apply (Permutation_in p (sorted_perm (x :: lat'))).
    apply list_elem_of_In, list_elem_of_lookup. eauto. }
  split; [| split; eauto].
  refine (Sorted_lookup_le (sorted (x :: lat')) _ _ p95 p99 (sorted_Sorted _) _ L95 L99).
  apply Z2Nat.inj_le; try (apply Z.div_pos; lia).
  apply Z.div_le_mono; lia.
Qed.

(** X14 on the latencies 7, 1, 4. *)
Lemma percentiles_ordered_witness :
  exists st,
    get_stats (record_all [(true, 7%Q, 0, 0); (true, 1%Q, 0, 0); (true, 4%Q, 0, 0)] init)
      = Some st /\
    (p95_latency_ms st <= p99_latency_ms st)%Q.
Proof.
  eexists. split; [vm_compute; reflexivity |].
  apply (percentiles_ordered [(true, 7%Q, 0, 0); (true, 1%Q, 0, 0); (true, 4%Q, 0, 0)]).
  - discriminate.
  - vm_compute. reflexivity.
Defined.

End MetricsMore.

(** ** APIGatewayManager: routes, registrations and the stored status *)

Section ManagerMore.
Import APIGatewayManager.

Lemma add_route_keeps_limiter (route : RouteConfig) (g : t) (key : string)
    (rl : RateLimiter.t) :
  rate_limiters g !! key = Some rl -> rate_limiters (add_route route g) !! key = Some rl.
Proof.
  intros H. unfold add_route. cbn [rate_limiters].
  destruct (rate_limiters g !! route_key route) eqn:E; [exact H |].
  rewrite lookup_insert_ne; [exact H |]. intros <-. congruence.
Qed.

Lemma step_keeps_limiter (g : t) (c : call) (key : string) (rl : RateLimiter.t) :
  rate_limiters g !! key = Some rl -> rate_limiters (step g c) !! key = Some rl.
Proof.
  intros H. destruct c as [f| |route|name instance| |ts]; simpl.
  - destruct f; simpl; [exact H | |]; apply add_route_keeps_limiter; exact H.
  - apply add_route_keeps_limiter; exact H.
  - apply add_route_keeps_limiter; exact H.
  - unfold register_service. destruct (services g !! name); exact H.
  - unfold health_check. destruct (_ =? 0); exact H.
  - exact H.
Qed.

(** X15.  The limiter of a route key is created by the first [add_route]
    for that key, with the quota and window of that route, and no later
    registry call replaces or reconfigures it: a later [add_route] for the
    same key with another quota changes the stored route but not the
    limiter. *)
Theorem limiter_keeps_first_quota (route : RouteConfig) (g : t) (cs : list call) :
  rate_limiters g !! route_key route = None ->
  rate_limiters (run (add_route route g) cs) !! route_key route
  = Some (RateLimiter.init
            (mkRateLimitConfig SLIDING_WINDOW (rate_limit_requests route)
               (rate_limit_window_seconds route) 300)).
Proof.
  intros Hnone.
  assert (H0 : rate_limiters (add_route route g) !! route_key route
               = Some (RateLimiter.init
                         (mkRateLimitConfig SLIDING_WINDOW (rate_limit_requests route)
                            (rate_limit_window_seconds route) 300))).
  { unfold add_route. cbn [rate_limiters]. rewrite Hnone. apply lookup_insert_eq. }
  revert H0. generalize (add_route route g). unfold run.
  induction cs as [|c cs IH]; intros g0 H0; [exact H0 |].
  simpl. apply IH, step_keeps_limiter, H0.
Qed.

(** X15 on a route first added with quota 1000 and then again with quota 7:
    the route map has quota 7, the limiter still 1000. *)
Lemma limiter_keeps_first_quota_witness :
  let r1 := new_route "/api/v1/health" "GET" "health-check" 8080 in
  let r2 := mkRouteConfig "/api/v1/health" "GET" "health-check" 9090 5000 3
              (1 # 2) false 7 60 true ∅ in
  let g := run (add_route r1 (init None FileLoaded)) [AddRoute r2] in
  rate_limiters g !! "GET:/api/v1/health"
    = Some (RateLimiter.init (mkRateLimitConfig SLIDING_WINDOW 1000 60 300)) /\
  (rate_limit_requests <$> routes g !! "GET:/api/v1/health") = Some 7.
Proof.
  intros r1 r2 g. split.
  - apply (limiter_keeps_first_quota r1 (init None FileLoaded) [AddRoute r2]).
    reflexivity.
  - vm_compute. reflexivity.
Defined.

(** The healthy count is at least (at most) the number of services times
    a lower (upper) bound on the healthy instances of each service. *)
Lemma healthy_services_ge (lo : Z) (g : t) :
  (forall name instances, services g !! name = Some instances ->
     lo <= Z.of_nat (length (List.filter is_healthy instances))) ->
  lo * total_services g <= healthy_services g.
Proof.
  unfold healthy_services, total_services. generalize (services g). intros m.
  apply (map_fold_weak_ind
           (fun r (m : gmap string (list ServiceInstance)) =>
              (forall name instances, m !! name = Some instances ->
                 lo <= Z.of_nat (length (List.filter is_healthy instances))) ->
              lo * Z.of_nat (size m) <= r)).
  - intros _. rewrite map_size_empty. lia.
  - intros i x m' r Hi IH H.
    rewrite map_size_insert_None by exact Hi.
    assert (Hx : lo <= Z.of_nat (length (List.filter is_healthy x)))
      by (apply (H i), lookup_insert_eq).
    assert (Hr : lo * Z.of_nat (size m') <= r).
    { apply IH. intros name instances Hn. apply (H name).
      rewrite lookup_insert_ne; [exact Hn |]. intros <-. congruence. }
    lia.
Qed.

Lemma healthy_services_le (hi : Z) (g : t) :
  (forall name instances, services g !! name = Some instances ->
     Z.of_nat (length (List.filter is_healthy instances)) <= hi) ->
  healthy_services g <= hi * total_services g.
Proof.
  unfold healthy_services, total_services. generalize (services g). intros m.
  apply (map_fold_weak_ind
           (fun r (m : gmap string (list ServiceInstance)) =>
              (forall name instances, m !! name = Some instances ->
                 Z.of_nat (length (List.filter is_healthy instances)) <= hi) ->
              r <= hi * Z.of_nat (size m))).
  - intros _. rewrite map_size_empty. lia.
  - intros i x m' r Hi IH H.
    rewrite map_size_insert_None by exact Hi.
    assert (Hx : Z.of_nat (length (List.filter is_healthy x)) <= hi)
      by (apply (H i), lookup_insert_eq).
    assert (Hr : r <= hi * Z.of_nat (size m')).
    { apply IH. intros name instances Hn. apply (H name).
      rewrite lookup_insert_ne; [exact Hn |]. intros <-. congruence. }
    lia.
Qed.

(** X16.  The status depends on how many healthy instances a service has, not
    on how many of its instances are healthy: with at least one service
    registered, if no service has more than one healthy instance the status
    is unhealthy (even when every instance is healthy), and if every service
    has at least two healthy instances the status is healthy (even when other
    instances are down). *)
Theorem health_check_by_replication (g : t) :
  services g <> ∅ ->
  ((forall name instances, services g !! name = Some instances ->
      Z.of_nat (length (List.filter is_healthy instances)) <= 1) ->
   snd (health_check g) = UNHEALTHY) /\
  ((forall name instances, services g !! name = Some instances ->
      2 <= Z.of_nat (length (List.filter is_healthy instances))) ->
   snd (health_check g) = HEALTHY).
Proof.
  intros Hne.
  assert (Hn : 0 < total_services g).
  { unfold total_services. destruct (size (services g)) eqn:E; [| lia].
    apply map_size_empty_inv in E. contradiction. }
  unfold health_check. replace (total_services g =? 0) with false
    by (symmetry; apply Z.eqb_neq; lia).
  cbn [snd]. unfold health_ratio. split; intros H.
  - pose proof (healthy_services_le 1 g H) as Hhi.
    assert (H34 : Qltb (3 # 4) (inject_Z (healthy_services g)
                                / inject_Z (total_services g * 2)) = false).
    { apply not_true_is_false. intros T. apply Qltb_lt in T.
      apply (ratio_above 3 4 _ _ Hn) in T; lia. }
    assert (H12 : Qltb (1 # 2) (inject_Z (healthy_services g)
                                / inject_Z (total_services g * 2)) = false).
    { apply not_true_is_false. intros T. apply Qltb_lt in T.
      apply (ratio_above 1 2 _ _ Hn) in T; lia. }
    rewrite H34, H12. reflexivity.
  - pose proof (healthy_services_ge 2 g H) as Hlo.
    assert (H34 : Qltb (3 # 4) (inject_Z (healthy_services g)
                                / inject_Z (total_services g * 2)) = true).
    { apply Qltb_lt. apply (ratio_above 3 4 _ _ Hn); lia. }
    rewrite H34. reflexivity.
Qed.

(** X16 on one service with one healthy instance, and on one service with
    two healthy instances and one that is down. *)
Lemma health_check_by_replication_witness :
  let down := mkServiceInstance "d" 4 1 30 1000 None false 0 in
  let g0 := init None FileLoaded in
  snd (health_check (register_service "solo" (new_instance "h" 1) g0)) = UNHEALTHY /\
  snd (health_check
         (register_service "duo" down
            (register_service "duo" (new_instance "h" 2)
               (register_service "duo" (new_instance "h" 1) g0)))) = HEALTHY.
Proof.
  intros down g0. split.
  - apply (health_check_by_replication
             (register_service "solo" (new_instance "h" 1) g0)).
    + intros H. apply (f_equal size) in H. vm_compute in H. discriminate.
    + intros name instances H.
      change (<["solo" := [new_instance "h" 1]]> (∅ : gmap string (list ServiceInstance))
              !! name = Some instances) in H.
      apply lookup_insert_Some in H. destruct H as [[_ <-]|[_ H]]; [simpl; lia |].
      rewrite lookup_empty in H. discriminate.
  - apply (health_check_by_replication
             (register_service "duo" down
                (register_service "duo" (new_instance "h" 2)
                   (register_service "duo" (new_instance "h" 1) g0)))).
    + intros H. apply (f_equal size) in H. vm_compute in H. discriminate.
    + intros name instances H.
      assert (E : services
                    (register_service "duo" down
                       (register_service "duo" (new_instance "h" 2)
                          (register_service "duo" (new_instance "h" 1) g0)))
                  = {["duo" := [new_instance "h" 1; new_instance "h" 2; down]]}).
      { apply map_eq. intros k. destruct (decide (k = "duo")) as [->|Hk].
        - rewrite lookup_singleton_eq. vm_compute. reflexivity.
        - rewrite lookup_singleton_ne by congruence.
          unfold register_service, g0, init, load_config.
          cbn [services]. rewrite lookup_empty. cbn [services].
          rewrite lookup_insert_eq. cbn [services].
          rewrite lookup_insert_eq. cbn [services].
          rewrite !lookup_insert_ne by congruence. apply lookup_empty. }
      rewrite E in H. apply lookup_singleton_Some in H. destruct H as [_ <-].
      simpl. lia.
Defined.

Lemma step_status (g : t) (c : call) : c <> HealthCheck -> status (step g c) = status g.
Proof.
  intros Hc. destruct c as [f| |route|name instance| |ts]; simpl; try reflexivity.
  - destruct f; reflexivity.
  - unfold register_service. destruct (services g !! name); reflexivity.
  - contradiction.
Qed.

(** X17.  The status is stored, not derived on demand: only [health_check]
    writes it.  After any registry calls other than [health_check] the
    status is what it was, so [get_gateway_info] on a new manager reports
    healthy whatever instances were registered, healthy or not. *)
Theorem status_written_only_by_health_check (cfg : option string) (f : config_file)
    (cs : list call) (ts : string) :
  Forall (fun c => c <> HealthCheck) cs ->
  (forall g, status (run g cs) = status g) /\
  info_status (get_gateway_info ts (run (init cfg f) cs)) = "healthy".
Proof.
  intros Hcs.
  assert (H : forall g, status (run g cs) = status g).
  { unfold run. induction Hcs as [|c cs Hc _ IH]; intros g; [reflexivity |].
    simpl. rewrite IH. apply step_status, Hc. }
  split; [exact H |].
  unfold get_gateway_info. cbn [info_status]. rewrite H.
  destruct f; reflexivity.
Qed.

(** X17 after registering one instance that is down. *)
Lemma status_written_only_by_health_check_witness :
  info_status
    (get_gateway_info "t"
       (run (init None FileMissing)
            [RegisterService "s" (mkServiceInstance "d" 4 1 30 1000 None false 0)]))
  = "healthy".
Proof.
  apply (status_written_only_by_health_check None FileMissing
           [RegisterService "s" (mkServiceInstance "d" 4 1 30 1000 None false 0)] "t").
  repeat constructor. discriminate.
Defined.

(** X18.  [health_check] writes nothing but the status field, the status it
    returns is the one stored, and calling it again returns the same status
    and changes nothing. *)
Theorem health_check_idempotent (g : t) :
  let g1 := fst (health_check g) in
  status g1 = snd (health_check g) /\
  health_check g1 = (g1, snd (health_check g)) /\
  routes g1 = routes g /\ services g1 = services g /\
  circuit_breakers g1 = circuit_breakers g /\ rate_limiters g1 = rate_limiters g /\
  load_balancers g1 = load_balancers g /\ metrics g1 = metrics g.
Proof.
  assert (H : forall s g0, health_check (set_status s g0)
                           = (set_status (snd (health_check g0)) g0, snd (health_check g0))).
  { intros s g0. unfold health_check, total_services, health_ratio, healthy_services,
      total_services. cbn [services set_status].
    destruct (_ =? 0); reflexivity. }
  assert (Hg : fst (health_check g) = set_status (snd (health_check g)) g).
  { unfold health_check. destruct (_ =? 0); reflexivity. }
  cbv zeta. rewrite Hg. rewrite H.
  repeat split.
Qed.

(** X19.  A configuration file that loads is only logged: the new manager
    then has no route, limiter or balancer at all.  When the file is missing
    or cannot be read the manager has exactly the default route
    GET:/api/v1/health, to health-check:8080 without authentication, with its
    limiter of 1000 requests per 60 seconds and a round-robin balancer.  In
    every case it starts healthy, without services or breakers, and a missing
    or empty path argument stands for gateway_config.json. *)
Theorem init_config (cfg : option string) (f : config_file) :
  let g := init cfg f in
  status g = HEALTHY /\ services g = ∅ /\ circuit_breakers g = ∅ /\
  metrics g = GatewayMetrics.init /\
  (config_path g = match cfg with
                   | Some p => if String.eqb p "" then "gateway_config.json" else p
                   | None => "gateway_config.json"
                   end) /\
  (f = FileLoaded ->
     routes g = ∅ /\ rate_limiters g = ∅ /\ load_balancers g = ∅) /\
  (f <> FileLoaded ->
     routes g = {[ "GET:/api/v1/health" :=
                     mkRouteConfig "/api/v1/health" "GET" "health-check" 8080 5000 3
                       (1 # 2) false 1000 60 true ∅ ]} /\
     rate_limiters g
       = {[ "GET:/api/v1/health" :=
              RateLimiter.init (mkRateLimitConfig SLIDING_WINDOW 1000 60 300) ]} /\
     load_balancers g = {[ "health-check" := LoadBalancer.init "round_robin" ]}).
Proof.
  intros g. subst g.
  destruct f; unfold init, load_config, initialize_defaults, add_route;
    cbn [status services circuit_breakers metrics config_path routes rate_limiters
         load_balancers];
    repeat split; try reflexivity; try discriminate; try contradiction;
    try (intros; contradiction).
Qed.

Lemma register_service_lookup (name : string) (instance : ServiceInstance) (g : t) :
  services (register_service name instance g) !! name
  = Some (default [] (services g !! name) ++ [instance]).
Proof.
  unfold register_service. destruct (services g !! name) eqn:E;
    cbn [services]; rewrite lookup_insert_eq; reflexivity.
Qed.

Lemma register_service_others (name : string) (instance : ServiceInstance) (g : t) :
  (forall n, n <> name ->
     services (register_service name instance g) !! n = services g !! n /\
     circuit_breakers (register_service name instance g) !! n = circuit_breakers g !! n) /\
  routes (register_service name instance g) = routes g /\
  rate_limiters (register_service name instance g) = rate_limiters g /\
  load_balancers (register_service name instance g) = load_balancers g.
Proof.
  unfold register_service. destruct (services g !! name) eqn:E;
    cbn [services circuit_breakers routes rate_limiters load_balancers];
    (split; [| repeat split]); intros n Hn; rewrite ?lookup_insert_ne by congruence;
    split; reflexivity.
Qed.

Lemma register_service_breaker (name : string) (instance : ServiceInstance) (g : t) :
  circuit_breakers (register_service name instance g) !! name
  = match services g !! name with
    | Some _ => circuit_breakers g !! name
    | None => Some CircuitBreaker.fresh
    end.
Proof.
  unfold register_service. destruct (services g !! name) eqn:E;
    cbn [circuit_breakers]; [reflexivity | apply lookup_insert_eq].
Qed.

(** X20.  Registering instances for a service name one after the other
    appends them, in that order, behind the instances the service already
    had; other services, and all routes, limiters and balancers, are left as
    they were; the breaker of the service is created with the first instance
    of a new name and is kept, not replaced, for a name that was there. *)
Theorem register_service_appends (name : string) (instances : list ServiceInstance)
    (g : t) :
  instances <> [] ->
  let g' := run g (map (RegisterService name) instances) in
  services g' !! name = Some (default [] (services g !! name) ++ instances) /\
  (forall n, n <> name ->
     services g' !! n = services g !! n /\
     circuit_breakers g' !! n = circuit_breakers g !! n) /\
  circuit_breakers g' !! name
    = match services g !! name with
      | Some _ => circuit_breakers g !! name
      | None => Some CircuitBreaker.fresh
      end /\
  routes g' = routes g /\ rate_limiters g' = rate_limiters g /\
  load_balancers g' = load_balancers g.
Proof.
  intros Hne. cbv zeta.
  induction instances as [|i instances IH] using rev_ind; [contradiction |].
  rewrite map_app. unfold run. rewrite fold_left_app. cbn [map fold_left step].
  fold (run g (map (RegisterService name) instances)).
  set (g1 := run g (map (RegisterService name) instances)) in *.
  destruct (register_service_others name i g1) as (Ho & Hr & Hl & Hb).
  pose proof (register_service_lookup name i g1) as Hs.
  pose proof (register_service_breaker name i g1) as Hc.
  destruct instances as [|j instances'].
  - subst g1. cbn [map run fold_left] in *. rewrite app_nil_r in *.
    repeat split; try assumption; apply Ho; assumption.
  - destruct (IH ltac:(discriminate)) as (I1 & I2 & I3 & I4 & I5 & I6).
    rewrite I1 in Hs, Hc. cbn [default] in Hs.
    split; [rewrite Hs, app_assoc; reflexivity |].
    split; [intros n Hn; destruct (Ho n Hn) as [A B]; destruct (I2 n Hn) as [C D];
            split; congruence |].
    split; [rewrite Hc; exact I3 |].
    repeat split; congruence.
Qed.

(** X20 on two instances for a new name. *)
Lemma register_service_appends_witness :
  services (run (init None FileMissing)
              [RegisterService "user-service" (new_instance "localhost" 8001);
               RegisterService "user-service" (new_instance "localhost" 8002)])
    !! "user-service"
  = Some [new_instance "localhost" 8001; new_instance "localhost" 8002].
Proof.
  apply (register_service_appends "user-service"
           [new_instance "localhost" 8001; new_instance "localhost" 8002]
           (init None FileMissing)).
  discriminate.
Defined.

(** X21.  A registration adds the new instance to the count that
    [health_check] divides, by 1 when the instance is healthy and by 0 when
    it is not, and adds 1 to the number of services exactly when the name is
    new. *)
Theorem register_service_counts (name : string) (instance : ServiceInstance) (g : t) :
  healthy_services (register_service name instance g)
    = healthy_services g + (if is_healthy instance then 1 else 0) /\
  total_services (register_service name instance g)
    = total_services g + (match services g !! name with Some _ => 0 | None => 1 end).
Proof.
  unfold healthy_services, total_services, register_service.
  set (f := fun (_ : string) (instances : list ServiceInstance) (acc : Z) =>
              acc + Z.of_nat (length (List.filter is_healthy instances))).
  assert (Hcomm : forall (j1 j2 : string) (z1 z2 : list ServiceInstance) (y : Z),
            f j1 z1 (f j2 z2 y) = f j2 z2 (f j1 z1 y)) by (intros; unfold f; lia).
  destruct (services g !! name) as [old|] eqn:E; cbn [services].
  - split.
    + rewrite <- insert_delete_eq.
      rewrite map_fold_insert_L; [| intros; apply Hcomm | apply lookup_delete_eq].
      rewrite (map_fold_delete_L f 0 name old (services g)); [| intros; apply Hcomm | exact E].
      unfold f. rewrite List.filter_app, length_app. cbn [List.filter].
      destruct (is_healthy instance); simpl; lia.
    + rewrite map_size_insert_Some by eauto. lia.
  - split.
    + rewrite map_fold_insert_L; [| intros; apply Hcomm | exact E].
      unfold f. cbn [List.filter]. destruct (is_healthy instance); simpl; lia.
    + rewrite map_size_insert_None by exact E. lia.
Qed.

Lemma key_split (m1 m2 p1 p2 : string) :
  no_colon m1 = true -> no_colon m2 = true ->
  m1 +:+ ":" +:+ p1 = m2 +:+ ":" +:+ p2 -> m1 = m2 /\ p1 = p2.
Proof.
  revert m2. induction m1 as [|a m1 IH]; intros m2 H1 H2 He.
  - destruct m2 as [|b m2]; cbn in He.
    + injection He as He. split; [reflexivity | exact He].
    + injection He as Hb _. subst b. cbn in H2. discriminate.
  - destruct m2 as [|b m2]; cbn in He.
    + injection He as Ha _. subst a. cbn in H1. discriminate.
    + injection He as Ha He. subst b. cbn [no_colon] in H1, H2.
      apply andb_true_iff in H1. apply andb_true_iff in H2.
      destruct (IH m2) as [-> ->]; [tauto | tauto | exact He |].
      split; reflexivity.
Qed.

(** X23.  Routes whose methods contain no colon get the same key only when
    they have the same method and the same path, so [add_route] keeps such
    routes apart: adding one never overwrites the entry of another endpoint. *)
Theorem route_key_injective (r1 r2 : RouteConfig) (g : t) :
  no_colon (method r1) = true ->
  no_colon (method r2) = true ->
  (route_key r1 = route_key r2 -> method r1 = method r2 /\ path r1 = path r2) /\
  (method r1 <> method r2 \/ path r1 <> path r2 ->
     routes (add_route r2 (add_route r1 g)) !! route_key r1 = Some r1 /\
     routes (add_route r2 (add_route r1 g)) !! route_key r2 = Some r2).
Proof.
  intros H1 H2.
  assert (Hinj : route_key r1 = route_key r2 ->
                 method r1 = method r2 /\ path r1 = path r2).
  { unfold route_key. apply key_split; assumption. }
  split; [exact Hinj |].
  intros Hdiff.
  assert (Hne : route_key r2 <> route_key r1).
  { intros He. symmetry in He. destruct (Hinj He) as [Hm Hp]. tauto. }
  unfold add_route. cbn [routes]. split.
  - rewrite lookup_insert_ne by exact Hne. apply lookup_insert_eq.
  - apply lookup_insert_eq.
Qed.

(** X23 on GET and POST of the same path. *)
Lemma route_key_injective_witness :
  let r1 := new_route "/api/v1/users" "GET" "user-service" 8001 in
  let r2 := new_route "/api/v1/users" "POST" "user-service" 8001 in
  routes (add_route r2 (add_route r1 (init None FileLoaded))) !! route_key r1 = Some r1 /\
  routes (add_route r2 (add_route r1 (init None FileLoaded))) !! route_key r2 = Some r2.
Proof.
  intros r1 r2.
  apply (route_key_injective r1 r2 (init None FileLoaded)); [reflexivity | reflexivity |].
  left. discriminate.
Defined.

End ManagerMore.
